(** * Gemini Interview Coach: the session engine of [App] and the
    [FeedbackList] renderer, embedded and verified.

    The TypeScript sources are embedded shallowly.  React state and refs of
    the [App] component become one record [App]; every callback
    ([onmessage], [onerror], [onclose], [stopSession], a source's [onended])
    becomes a function on that record.  Calls on browser objects that the
    claims talk about ([source.start], [source.stop], [session.close],
    [session.sendToolResponse]) are appended to an effect log.

    Numbers:  the audio clock and buffer durations are JavaScript doubles;
    they are modelled as canonical rationals [Qc], so rounding is not
    modelled.  [Date.now()] is an integer number of milliseconds, [Z].

    Asynchrony:  [onmessage] is an [async] function with one [await] (the
    audio decode).  Each inbound message is handled to completion before the
    next event; a rejected decode ends the handler at the [await] and keeps
    the assignments made before it. *)

From stdpp Require Import base numbers list strings gmap sorting.
From Stdlib Require Import Ascii QArith Qcanon Permutation Sorted.

Local Open Scope Z_scope.

(** ** JavaScript values *)

(** Truthiness of a JavaScript string: every string but the empty one. *)
Definition truthy (s : string) : bool :=
  match s with
  | EmptyString => false
  | String _ _ => true
  end.

(** [s += v] where [v] may be [undefined]: string concatenation converts
    [undefined] to the text "undefined". *)
Definition concatJs (s : string) (v : option string) : string :=
  match v with
  | Some t => s +:+ t
  | None => s +:+ "undefined"
  end.

(** [Math.max] on two numbers. *)
Definition Qcmax (x y : Qc) : Qc := if decide (x ≤ y)%Qc then y else x.

(** ** types.ts *)

Inductive Sentiment := POSITIVE | NEUTRAL | IMPROVEMENT.

Definition Sentiment_value (s : Sentiment) : string :=
  match s with
  | POSITIVE => "positive"
  | NEUTRAL => "neutral"
  | IMPROVEMENT => "improvement"
  end.

(** [FeedbackMessage].  The three fields copied from the tool call's [args]
    are typed [string]/[Sentiment] in TypeScript, but [args] is cast from
    [any] without a check, so at run time each of them holds whatever the
    call carried, [undefined] ([None]) included. *)
Record FeedbackMessage := {
  fb_id : string;
  fb_category : option string;
  fb_message : option string;
  fb_sentiment : option string;
  fb_timestamp : Z
}.

Inductive Role := user | model.

Record TranscriptionEntry := {
  role : Role;
  text : string;
  timestamp : Z
}.

(** ** Inbound messages *)

(** The arguments object of a function call; each property may be
    missing. *)
Record FeedbackArgs := {
  category : option string;
  message : option string;
  sentiment : option string
}.

(** A function call of a tool-call message.  Its id, its name and its
    arguments object may each be missing ([None] for [undefined]). *)
Record FunctionCall := {
  fc_id : option string;
  fc_name : option string;
  fc_args : option FeedbackArgs
}.

(** The parts of a [LiveServerMessage] that [onmessage] reads.  A field is
    [None] (or [false]) when the optional chain that reads it yields
    [undefined] or another falsy value.
    - [audioData] is [msg.serverContent?.modelTurn?.parts?.[0]?.inlineData?.data];
    - [inputTranscription] is [Some t] when the transcription object is
      present, [t] being its optional [text];
    - [toolCall] is [Some fcs] when [msg.toolCall] is present, [fcs] being
      its [functionCalls]. *)
Record LiveServerMessage := {
  audioData : option string;
  interrupted : bool;
  inputTranscription : option (option string);
  outputTranscription : option (option string);
  turnComplete : bool;
  toolCall : option (list FunctionCall)
}.

(** What the handler reads from its surroundings while it handles one
    message: the output audio context's clock; the wall clock as the
    updater of the transcript reads it ([dateNow], one reading of
    [Date.now()] serving the entries of the turn); and, for the updater
    queued by the k-th function call of the message, the identifier it draws
    from [Math.random()] and its own reading of [Date.now()]
    ([feedbackNow]). *)
Record Env := {
  currentTime : Qc;
  dateNow : Z;
  randomId : nat → string;
  feedbackNow : nat → Z
}.

(** ** Audio objects *)

(** A decoded [AudioBuffer]: 16-bit samples of one channel and the rate. *)
Record AudioBuffer := {
  samples : list Z;
  sampleRate : positive
}.

(** [audioBuffer.duration]: frames divided by the sample rate, in seconds. *)
Definition duration (b : AudioBuffer) : Qc :=
  Q2Qc (Z.of_nat (length (samples b)) # sampleRate b).

(** An [AudioBufferSourceNode] created by [ctx.createBufferSource()]:
    its identity, its buffer, and the time passed to [source.start]. *)
Record AudioBufferSourceNode := {
  node_id : nat;
  buffer : AudioBuffer;
  when : Qc
}.

(** The play window of a started source ends here. *)
Definition windowEnd (s : AudioBufferSourceNode) : Qc :=
  (when s + duration (buffer s))%Qc.

Record FunctionResponse := {
  fr_id : option string;
  fr_name : option string;
  fr_result : string
}.

(** Calls on objects outside the component. *)
Inductive Effect :=
| SourceStart (n : nat) (t : Qc)
| SourceStop (n : nat)
| SessionClose (s : nat)
| SendToolResponse (r : FunctionResponse).

Record TranscriptionBuffer := {
  buf_user : string;
  buf_model : string
}.

(** ** The component's state *)

(** React state ([isActive] .. [error]), refs ([nextStartTimeRef] ..
    [transcriptionBufferRef]), and the world around them: whether the
    microphone stream obtained by [startSession] is live, the effect log
    (oldest first), and the number of source nodes created so far.
    [sourcesRef] is a JavaScript [Set]: a list in insertion order. *)
Record App := {
  isActive : bool;
  isSpeaking : bool;
  feedbacks : list FeedbackMessage;
  transcriptions : list TranscriptionEntry;
  error : option string;
  nextStartTimeRef : Qc;
  sourcesRef : list AudioBufferSourceNode;
  sessionRef : option nat;
  transcriptionBufferRef : TranscriptionBuffer;
  micStream : bool;
  effects : list Effect;
  nodesCreated : nat
}.

Definition setIsActive (b : bool) (st : App) : App :=
  {| isActive := b; isSpeaking := isSpeaking st; feedbacks := feedbacks st;
     transcriptions := transcriptions st; error := error st;
     nextStartTimeRef := nextStartTimeRef st; sourcesRef := sourcesRef st;
     sessionRef := sessionRef st;
     transcriptionBufferRef := transcriptionBufferRef st;
     micStream := micStream st; effects := effects st;
     nodesCreated := nodesCreated st |}.

Definition setIsSpeaking (b : bool) (st : App) : App :=
  {| isActive := isActive st; isSpeaking := b; feedbacks := feedbacks st;
     transcriptions := transcriptions st; error := error st;
     nextStartTimeRef := nextStartTimeRef st; sourcesRef := sourcesRef st;
     sessionRef := sessionRef st;
     transcriptionBufferRef := transcriptionBufferRef st;
     micStream := micStream st; effects := effects st;
     nodesCreated := nodesCreated st |}.

Definition setFeedbacks (f : list FeedbackMessage → list FeedbackMessage)
    (st : App) : App :=
  {| isActive := isActive st; isSpeaking := isSpeaking st;
     feedbacks := f (feedbacks st);
     transcriptions := transcriptions st; error := error st;
     nextStartTimeRef := nextStartTimeRef st; sourcesRef := sourcesRef st;
     sessionRef := sessionRef st;
     transcriptionBufferRef := transcriptionBufferRef st;
     micStream := micStream st; effects := effects st;
     nodesCreated := nodesCreated st |}.

Definition setTranscriptions
    (f : list TranscriptionEntry → list TranscriptionEntry) (st : App) : App :=
  {| isActive := isActive st; isSpeaking := isSpeaking st;
     feedbacks := feedbacks st;
     transcriptions := f (transcriptions st); error := error st;
     nextStartTimeRef := nextStartTimeRef st; sourcesRef := sourcesRef st;
     sessionRef := sessionRef st;
     transcriptionBufferRef := transcriptionBufferRef st;
     micStream := micStream st; effects := effects st;
     nodesCreated := nodesCreated st |}.

Definition setError (e : option string) (st : App) : App :=
  {| isActive := isActive st; isSpeaking := isSpeaking st;
     feedbacks := feedbacks st;
     transcriptions := transcriptions st; error := e;
     nextStartTimeRef := nextStartTimeRef st; sourcesRef := sourcesRef st;
     sessionRef := sessionRef st;
     transcriptionBufferRef := transcriptionBufferRef st;
     micStream := micStream st; effects := effects st;
     nodesCreated := nodesCreated st |}.

Definition setNextStartTime (t : Qc) (st : App) : App :=
  {| isActive := isActive st; isSpeaking := isSpeaking st;
     feedbacks := feedbacks st;
     transcriptions := transcriptions st; error := error st;
     nextStartTimeRef := t; sourcesRef := sourcesRef st;
     sessionRef := sessionRef st;
     transcriptionBufferRef := transcriptionBufferRef st;
     micStream := micStream st; effects := effects st;
     nodesCreated := nodesCreated st |}.

Definition setSources (l : list AudioBufferSourceNode) (st : App) : App :=
  {| isActive := isActive st; isSpeaking := isSpeaking st;
     feedbacks := feedbacks st;
     transcriptions := transcriptions st; error := error st;
     nextStartTimeRef := nextStartTimeRef st; sourcesRef := l;
     sessionRef := sessionRef st;
     transcriptionBufferRef := transcriptionBufferRef st;
     micStream := micStream st; effects := effects st;
     nodesCreated := nodesCreated st |}.

Definition setSession (s : option nat) (st : App) : App :=
  {| isActive := isActive st; isSpeaking := isSpeaking st;
     feedbacks := feedbacks st;
     transcriptions := transcriptions st; error := error st;
     nextStartTimeRef := nextStartTimeRef st; sourcesRef := sourcesRef st;
     sessionRef := s;
     transcriptionBufferRef := transcriptionBufferRef st;
     micStream := micStream st; effects := effects st;
     nodesCreated := nodesCreated st |}.

Definition setTranscriptionBuffer (b : TranscriptionBuffer) (st : App) : App :=
  {| isActive := isActive st; isSpeaking := isSpeaking st;
     feedbacks := feedbacks st;
     transcriptions := transcriptions st; error := error st;
     nextStartTimeRef := nextStartTimeRef st; sourcesRef := sourcesRef st;
     sessionRef := sessionRef st;
     transcriptionBufferRef := b;
     micStream := micStream st; effects := effects st;
     nodesCreated := nodesCreated st |}.

Definition setMicStream (b : bool) (st : App) : App :=
  {| isActive := isActive st; isSpeaking := isSpeaking st;
     feedbacks := feedbacks st;
     transcriptions := transcriptions st; error := error st;
     nextStartTimeRef := nextStartTimeRef st; sourcesRef := sourcesRef st;
     sessionRef := sessionRef st;
     transcriptionBufferRef := transcriptionBufferRef st;
     micStream := b; effects := effects st;
     nodesCreated := nodesCreated st |}.

(** Perform calls on outside objects: append them to the log. *)
Definition perform (es : list Effect) (st : App) : App :=
  {| isActive := isActive st; isSpeaking := isSpeaking st;
     feedbacks := feedbacks st;
     transcriptions := transcriptions st; error := error st;
     nextStartTimeRef := nextStartTimeRef st; sourcesRef := sourcesRef st;
     sessionRef := sessionRef st;
     transcriptionBufferRef := transcriptionBufferRef st;
     micStream := micStream st; effects := effects st ++ es;
     nodesCreated := nodesCreated st |}.

(** [ctx.createBufferSource()]: one more node exists. *)
Definition createBufferSource (st : App) : App :=
  {| isActive := isActive st; isSpeaking := isSpeaking st;
     feedbacks := feedbacks st;
     transcriptions := transcriptions st; error := error st;
     nextStartTimeRef := nextStartTimeRef st; sourcesRef := sourcesRef st;
     sessionRef := sessionRef st;
     transcriptionBufferRef := transcriptionBufferRef st;
     micStream := micStream st; effects := effects st;
     nodesCreated := S (nodesCreated st) |}.

(** The state of a freshly mounted component. *)
Definition initialApp : App :=
  {| isActive := false; isSpeaking := false; feedbacks := [];
     transcriptions := []; error := None;
     nextStartTimeRef := 0%Qc; sourcesRef := [];
     sessionRef := None;
     transcriptionBufferRef := {| buf_user := ""; buf_model := "" |};
     micStream := false; effects := []; nodesCreated := 0%nat |}.

(** ** Handlers that may throw *)

Inductive Completion := Normal | Throw.

Definition Handler := App → Completion * App.

Definition pass : Handler := λ st, (Normal, st).

(** Sequencing of statements: a throw skips what follows and keeps the
    state reached. *)
Definition andThen (h k : Handler) : Handler := λ st,
  match h st with
  | (Normal, st') => k st'
  | (Throw, st') => (Throw, st')
  end.

Definition lift (f : App → App) : Handler := λ st, (Normal, f st).

(** [sourcesRef.current.delete(source)] *)
Definition deleteSource (n : nat) (l : list AudioBufferSourceNode)
    : list AudioBufferSourceNode :=
  filter (λ s, node_id s ≠ n) l.

(** [sourcesRef.current.forEach(s => s.stop())] *)
Definition stopAll (st : App) : App :=
  perform (map (λ s, SourceStop (node_id s)) (sourcesRef st)) st.

(** ** stopSession *)

Definition stopSession (st : App) : App :=
  let st1 :=
    match sessionRef st with
    | Some s => setSession None (perform [SessionClose s] st)
    | None => st
    end in
  let st2 := setIsActive false st1 in
  let st3 := setIsSpeaking false st2 in
  let st4 := stopAll st3 in
  setSources [] st4.

(** ** The live session callbacks *)

Section Callbacks.

(** [decodeAudioData(decode(audioData), ctx, 24000, 1)] of
    services/audio-processing: the decoded buffer, or [None] when the call
    throws or its promise rejects. *)
Variable decodeAudioData : string → option AudioBuffer.

(** "Handle Audio Output" *)
Definition handleAudioOutput (env : Env) (msg : LiveServerMessage) : Handler :=
  λ st,
  match audioData msg with
  | Some data =>
    if truthy data then
      let st1 := setIsSpeaking true st in
      let st2 :=
        setNextStartTime (Qcmax (nextStartTimeRef st1) (currentTime env)) st1 in
      match decodeAudioData data with
      | None => (Throw, st2)
      | Some audioBuffer =>
        let source := {| node_id := nodesCreated st2;
                         buffer := audioBuffer;
                         when := nextStartTimeRef st2 |} in
        let st3 := createBufferSource st2 in
        let st4 := perform [SourceStart (node_id source) (when source)] st3 in
        let st5 :=
          setNextStartTime (nextStartTimeRef st4 + duration audioBuffer)%Qc st4 in
        (Normal, setSources (sourcesRef st5 ++ [source]) st5)
      end
    else (Normal, st)
  | None => (Normal, st)
  end.

(** "Handle Interruptions" *)
Definition interrupt (st : App) : App :=
  let st1 := stopAll st in
  let st2 := setSources [] st1 in
  let st3 := setNextStartTime 0%Qc st2 in
  setIsSpeaking false st3.

Definition handleInterruptions (msg : LiveServerMessage) : Handler :=
  if interrupted msg then lift interrupt else pass.

(** "Handle Transcriptions": the two appends. *)
Definition appendUser (t : option string) (st : App) : App :=
  let b := transcriptionBufferRef st in
  setTranscriptionBuffer
    {| buf_user := concatJs (buf_user b) t; buf_model := buf_model b |} st.

Definition appendModel (t : option string) (st : App) : App :=
  let b := transcriptionBufferRef st in
  setTranscriptionBuffer
    {| buf_user := buf_user b; buf_model := concatJs (buf_model b) t |} st.

Definition handleInputTranscription (msg : LiveServerMessage) : Handler :=
  match inputTranscription msg with
  | Some t => lift (appendUser t)
  | None => pass
  end.

Definition handleOutputTranscription (msg : LiveServerMessage) : Handler :=
  match outputTranscription msg with
  | Some t => lift (appendModel t)
  | None => pass
  end.

(** The entries a completed turn adds to the transcript. *)
Definition turnEntries (uText mText : string) (now : Z)
    : list TranscriptionEntry :=
  (if truthy uText
   then [{| role := user; text := uText; timestamp := now |}] else [])
  ++
  (if truthy mText
   then [{| role := model; text := mText; timestamp := now |}] else []).

(** The [turnComplete] branch. *)
Definition flushTurn (env : Env) (st : App) : App :=
  let uText := buf_user (transcriptionBufferRef st) in
  let mText := buf_model (transcriptionBufferRef st) in
  let st1 :=
    if truthy uText || truthy mText
    then setTranscriptions (λ prev, prev ++ turnEntries uText mText (dateNow env)) st
    else st in
  setTranscriptionBuffer {| buf_user := ""; buf_model := "" |} st1.

Definition handleTurnComplete (env : Env) (msg : LiveServerMessage) : Handler :=
  if turnComplete msg then lift (flushTurn env) else pass.

(** "Handle Tool Calls (Feedback)": the body of the loop for the k-th call
    of the message. *)
Definition acknowledgment (fc : FunctionCall) : FunctionResponse :=
  {| fr_id := fc_id fc; fr_name := fc_name fc;
     fr_result := "feedback_received" |}.

(** The object the updater of the k-th call builds from the call's
    arguments object. *)
Definition feedbackOf (env : Env) (k : nat) (args : FeedbackArgs)
    : FeedbackMessage :=
  {| fb_id := randomId env k;
     fb_category := category args;
     fb_message := message args;
     fb_sentiment := sentiment args;
     fb_timestamp := feedbackNow env k |}.

Definition isProvideFeedback (fc : FunctionCall) : bool :=
  bool_decide (fc_name fc = Some "provideFeedback").

(** The updater passed to [setFeedbacks] reads [args.category] when React
    runs it.  When the call has no arguments object that read throws, in
    the updater and not in the handler: no event is recorded, and the
    handler goes on to queue the acknowledgment.  (What React does with the
    error of the updater is not modelled.) *)
Definition dispatch (env : Env) (k : nat) (fc : FunctionCall) (st : App) : App :=
  if isProvideFeedback fc then
    let st1 :=
      match fc_args fc with
      | Some args => setFeedbacks (λ prev, feedbackOf env k args :: prev) st
      | None => st
      end in
    perform [SendToolResponse (acknowledgment fc)] st1
  else st.

Fixpoint dispatchAll (env : Env) (k : nat) (fcs : list FunctionCall)
    (st : App) : App :=
  match fcs with
  | [] => st
  | fc :: rest => dispatchAll env (S k) rest (dispatch env k fc st)
  end.

Definition handleToolCalls (env : Env) (msg : LiveServerMessage) : Handler :=
  match toolCall msg with
  | Some fcs => lift (dispatchAll env 0 fcs)
  | None => pass
  end.

(** [callbacks.onmessage] *)
Definition onmessage (env : Env) (msg : LiveServerMessage) : Handler :=
  andThen (handleAudioOutput env msg)
  (andThen (handleInterruptions msg)
  (andThen (handleInputTranscription msg)
  (andThen (handleOutputTranscription msg)
  (andThen (handleTurnComplete env msg)
           (handleToolCalls env msg))))).

(** [callbacks.onerror] *)
Definition onerror (st : App) : App :=
  let st1 :=
    setError (Some "Communication lost. Please try restarting the session.") st in
  stopSession st1.

(** [callbacks.onclose] *)
Definition onclose (st : App) : App := setIsActive false st.

(** [source.onended] of the source with identity [n]. *)
Definition onended (n : nat) (st : App) : App :=
  let st1 := setSources (deleteSource n (sourcesRef st)) st in
  if bool_decide (length (sourcesRef st1) = 0%nat)
  then setIsSpeaking false st1 else st1.

(** [startSession] up to the point where the connection is requested:
    [granted] tells whether [getUserMedia] resolved.  When it rejects, the
    [catch] block runs. *)
Definition startSession (granted : bool) (st : App) : App :=
  let st1 := setError None st in
  let st2 := setIsActive true st1 in
  if granted then setMicStream true st2
  else
    let st3 :=
      setError (Some "Could not access microphone or camera. Please check permissions.") st2 in
    setIsActive false st3.

(** [sessionRef.current = await sessionPromise] *)
Definition sessionResolved (s : nat) (st : App) : App := setSession (Some s) st.

(** The connection promise rejects: the [catch] block of [startSession]. *)
Definition sessionRejected (st : App) : App :=
  let st1 :=
    setError (Some "Could not access microphone or camera. Please check permissions.") st in
  setIsActive false st1.

(** ** The component as a transition system *)

Inductive Event :=
| ClickStart (granted : bool)
| SessionResolved (s : nat)
| SessionRejected
| OnMessage (env : Env) (msg : LiveServerMessage)
| OnEnded (n : nat)
| OnError
| OnClose
| ClickEnd
| DismissError.

Definition step (st : App) (ev : Event) : App :=
  match ev with
  | ClickStart granted => startSession granted st
  | SessionResolved s => sessionResolved s st
  | SessionRejected => sessionRejected st
  | OnMessage env msg => (onmessage env msg st).2
  | OnEnded n => onended n st
  | OnError => onerror st
  | OnClose => onclose st
  | ClickEnd => stopSession st
  | DismissError => setError None st
  end.

Definition run (evs : list Event) (st : App) : App := foldl step st evs.

End Callbacks.

(** ** services/audio-processing *)

Module AudioProcessing.

(** Modelled from the spec: the value of one character of the base64
    alphabet (the wire format is base64 text). *)
Definition base64Value (c : ascii) : option N :=
  let n := N_of_ascii c in
  if (65 <=? n)%N && (n <=? 90)%N then Some (n - 65)%N
  else if (97 <=? n)%N && (n <=? 122)%N then Some (n - 71)%N
  else if (48 <=? n)%N && (n <=? 57)%N then Some (n + 4)%N
  else if (n =? 43)%N then Some 62%N
  else if (n =? 47)%N then Some 63%N
  else None.

(** Modelled from the spec: the padding character of base64. *)
Definition isPad (c : ascii) : bool := (N_of_ascii c =? 61)%N.

(** Modelled from the spec: base64 text to bytes, four characters at a
    time, padding allowed in the last group only. *)
Fixpoint fromBase64 (cs : list ascii) : option (list N) :=
  match cs with
  | [] => Some []
  | a :: b :: c :: d :: rest =>
    match base64Value a, base64Value b, base64Value c, base64Value d with
    | Some x, Some y, Some z, Some w =>
      let n := (x * 262144 + y * 4096 + z * 64 + w)%N in
      match fromBase64 rest with
      | Some tl =>
        Some ((n / 65536)%N :: ((n / 256) mod 256)%N :: (n mod 256)%N :: tl)
      | None => None
      end
    | Some x, Some y, Some z, None =>
      let n := (x * 262144 + y * 4096 + z * 64)%N in
      if isPad d && bool_decide (rest = [])
      then Some [(n / 65536)%N; ((n / 256) mod 256)%N] else None
    | Some x, Some y, None, None =>
      let n := (x * 262144 + y * 4096)%N in
      if isPad c && isPad d && bool_decide (rest = [])
      then Some [(n / 65536)%N] else None
    | _, _, _, _ => None
    end
  | _ => None
  end.

(** Modelled from the spec: little-endian bytes to signed 16-bit samples;
    a byte length that is not a multiple of 2 is a decode error. *)
Fixpoint toInt16 (bs : list N) : option (list Z) :=
  match bs with
  | [] => Some []
  | lo :: hi :: rest =>
    let v := (Z.of_N lo + 256 * Z.of_N hi)%Z in
    let s := if (32768 <=? v)%Z then (v - 65536)%Z else v in
    match toInt16 rest with
    | Some tl => Some (s :: tl)
    | None => None
    end
  | [_] => None
  end.

(** Modelled from the spec: services/audio-processing ([decode] and
    [decodeAudioData]) is not among the sources.  The spec gives the wire
    format of inbound audio as PCM16 little-endian mono at 24 kHz,
    transported as base64 text, and makes a byte length that is not a
    multiple of 2 a decode error. *)
Definition decodeAudioData (data : string) : option AudioBuffer :=
  match fromBase64 (String.list_ascii_of_string data) with
  | Some bytes =>
    match toInt16 bytes with
    | Some ss => Some {| samples := ss; sampleRate := 24000 |}
    | None => None
    end
  | None => None
  end.

End AudioProcessing.

(** ** components/FeedbackList *)

Module FeedbackListComponent.

(** Arrays are objects: the store maps an array's identity to its
    elements. *)
Abbreviation Store := (gmap nat (list FeedbackMessage)).

(** The comparator [(a, b) => b.timestamp - a.timestamp]. *)
Definition compareFn (a b : FeedbackMessage) : Z :=
  fb_timestamp b - fb_timestamp a.

(** [Array.prototype.sort] is a stable sort: an element moves behind
    another only when the comparator is positive on them.  For a comparator
    that is a total preorder the result is unique; it is computed here by
    insertion from the right. *)
Fixpoint insertSorted {A} (cmp : A → A → Z) (x : A) (l : list A) : list A :=
  match l with
  | [] => [x]
  | y :: l' =>
    if (cmp x y <=? 0)%Z then x :: y :: l' else y :: insertSorted cmp x l'
  end.

Definition sortArray {A} (cmp : A → A → Z) (l : list A) : list A :=
  foldr (insertSorted cmp) [] l.

(** [[...feedbacks]]: a new array with the same elements. *)
Definition spread (r : nat) (σ : Store) : option (nat * Store) :=
  match σ !! r with
  | Some l => let r' := fresh (dom σ) in Some (r', <[r' := l]> σ)
  | None => None
  end.

(** [arr.sort(compareFn)] sorts the array [r] in place (and returns it). *)
Definition sortInPlace (r : nat) (σ : Store) : Store :=
  alter (sortArray compareFn) r σ.

(** [sortedFeedbacks]: the identity of the sorted copy, and the store. *)
Definition sortedFeedbacks (feedbacks : nat) (σ : Store) : option (nat * Store) :=
  match spread feedbacks σ with
  | Some (r', σ1) => Some (r', sortInPlace r' σ1)
  | None => None
  end.

(** The component: the feedback cards in the order they are rendered (none
    when the placeholder is shown), and the store after rendering. *)
Definition FeedbackList (feedbacks : nat) (σ : Store)
    : option (list FeedbackMessage * Store) :=
  match sortedFeedbacks feedbacks σ with
  | Some (r', σ2) =>
    match σ2 !! r' with
    | Some cards => Some (cards, σ2)
    | None => None
    end
  | None => None
  end.

(** Newest first: the earlier card is not older than the later one. *)
Definition newestFirst (a b : FeedbackMessage) : Prop :=
  fb_timestamp b ≤ fb_timestamp a.

End FeedbackListComponent.

(** ** Notions used in the statements *)

Global Instance Role_eq_dec : EqDecision Role.
Proof. solve_decision. Defined.

(** A message that carries one transcription fragment of the given channel
    and nothing else, and the message that closes a turn. *)
Definition transcriptionDelta (r : Role) (f : string) : LiveServerMessage :=
  {| audioData := None; interrupted := false;
     inputTranscription := if bool_decide (r = user) then Some (Some f) else None;
     outputTranscription := if bool_decide (r = model) then Some (Some f) else None;
     turnComplete := false; toolCall := None |}.

Definition turnCompleteMessage : LiveServerMessage :=
  {| audioData := None; interrupted := false;
     inputTranscription := None; outputTranscription := None;
     turnComplete := true; toolCall := None |}.

(** The fragments of one channel, in order of arrival. *)
Definition fragmentsOf (r : Role) (ds : list (Role * string)) : list string :=
  omap (λ d, if bool_decide (d.1 = r) then Some d.2 else None) ds.

(** The acknowledgments among a list of effects, in order. *)
Definition toolResponses (es : list Effect) : list FunctionResponse :=
  omap (λ e, match e with SendToolResponse r => Some r | _ => None end) es.

(** The feedback events a list of calls records, newest first. *)
Fixpoint recorded (env : Env) (k : nat) (fcs : list FunctionCall)
    : list FeedbackMessage :=
  match fcs with
  | [] => []
  | fc :: rest =>
    recorded env (S k) rest ++
    (if isProvideFeedback fc
     then match fc_args fc with
          | Some args => [feedbackOf env k args]
          | None => []
          end
     else [])
  end.

(** The acknowledgments a list of calls is answered with, in order. *)
Definition acknowledged (fcs : list FunctionCall) : list FunctionResponse :=
  map acknowledgment (filter (λ fc, isProvideFeedback fc = true) fcs).

(** What the statements after the audio block do; none of them throws. *)
Definition settle (env : Env) (msg : LiveServerMessage) (st : App) : App :=
  let st1 := if interrupted msg then interrupt st else st in
  let st2 := match inputTranscription msg with
             | Some t => appendUser t st1 | None => st1 end in
  let st3 := match outputTranscription msg with
             | Some t => appendModel t st2 | None => st2 end in
  let st4 := if turnComplete msg then flushTurn env st3 else st3 in
  match toolCall msg with
  | Some fcs => dispatchAll env 0 fcs st4
  | None => st4
  end.

(** What a transition out of the active phase leaves behind when it
    releases the session: from [st0] to [st']. *)
Definition released (st0 st' : App) : Prop :=
  isActive st' = false ∧
  sessionRef st' = None ∧
  sourcesRef st' = [] ∧
  isSpeaking st' = false ∧
  effects st' =
    effects st0 ++
    match sessionRef st0 with Some s => [SessionClose s] | None => [] end ++
    map (λ h, SourceStop (node_id h)) (sourcesRef st0) ∧
  micStream st' = micStream st0.

Section Notions.

Variable decodeAudioData : string → option AudioBuffer.

(** The audio block completes exactly when there is nothing to decode or the
    decode succeeds. *)
Definition audioDecodes (msg : LiveServerMessage) : Prop :=
  match audioData msg with
  | Some data => if truthy data then is_Some (decodeAudioData data) else True
  | None => True
  end.

(** The fragments arrive one message after the other. *)
Definition deliver (env : Env) (ds : list (Role * string)) (st : App) : App :=
  run decodeAudioData
    (map (λ d, OnMessage env (transcriptionDelta d.1 d.2)) ds) st.

(** A message that enqueues a chunk: it carries audio data that decodes,
    and it is not flagged [interrupted]. *)
Definition enqueues (msg : LiveServerMessage) : Prop :=
  interrupted msg = false ∧
  ∃ data, audioData msg = Some data ∧ truthy data = true ∧
          is_Some (decodeAudioData data).

(** The chunks arrive one after the other, each with the clock reading at
    its arrival. *)
Definition enqueueAll (chunks : list (Env * LiveServerMessage)) (st : App)
    : App :=
  run decodeAudioData (map (λ c, OnMessage c.1 c.2) chunks) st.

(** The audio chunk of an event, if it carries one, decodes. *)
Definition eventDecodes (ev : Event) : Prop :=
  match ev with
  | OnMessage _ msg => audioDecodes msg
  | _ => True
  end.

End Notions.

(** A source in the set implies the indicator is on. *)
Definition audibleImpliesSpeaking (st : App) : Prop :=
  sourcesRef st ≠ [] → isSpeaking st = true.

(** The indicator is on only if a source is in the set. *)
Definition speakingImpliesAudible (st : App) : Prop :=
  isSpeaking st = true → sourcesRef st ≠ [].

(** ** Concrete sessions *)

Module Runs.
Import AudioProcessing.

Definition envAt (t : Qc) (now : Z) : Env :=
  {| currentTime := t; dateNow := now; randomId := λ _, "k3j9x2m1q";
     feedbackNow := λ _, now |}.

Definition audioMessage (data : string) : LiveServerMessage :=
  {| audioData := Some data; interrupted := false;
     inputTranscription := None; outputTranscription := None;
     turnComplete := false; toolCall := None |}.

Definition interruptedMessage : LiveServerMessage :=
  {| audioData := None; interrupted := true;
     inputTranscription := None; outputTranscription := None;
     turnComplete := false; toolCall := None |}.

Definition toolCallMessage (fcs : list FunctionCall) : LiveServerMessage :=
  {| audioData := None; interrupted := false;
     inputTranscription := None; outputTranscription := None;
     turnComplete := false; toolCall := Some fcs |}.

(** Three samples of silence (six bytes), and a payload of three bytes,
    which is not a whole number of 16-bit samples. *)
Definition threeSamples : string := "AAAAAAAA".
Definition threeBytes : string := "AAAA".

(** A session that has been started and whose connection is open. *)
Definition activeApp : App :=
  run decodeAudioData [ClickStart true; SessionResolved 1] initialApp.

(** The same session with one source scheduled. *)
Definition playingApp : App :=
  run decodeAudioData [OnMessage (envAt 0 1000) (audioMessage threeSamples)]
    activeApp.

Definition completeCall : FunctionCall :=
  {| fc_id := Some "call-1"; fc_name := Some "provideFeedback";
     fc_args := Some {| category := Some "Pace";
                        message := Some "Slow down a little";
                        sentiment := Some "improvement" |} |}.

(** A provideFeedback call without [sentiment]. *)
Definition missingSentiment : FunctionCall :=
  {| fc_id := Some "call-2"; fc_name := Some "provideFeedback";
     fc_args := Some {| category := Some "Tone";
                        message := Some "Good energy";
                        sentiment := None |} |}.


(** A call of another name. *)
Definition otherCall : FunctionCall :=
  {| fc_id := Some "call-3"; fc_name := Some "endInterview";
     fc_args := Some {| category := None; message := None;
                        sentiment := None |} |}.

Definition twoChunksLate : list (Env * LiveServerMessage) :=
  [(envAt 0 1000, audioMessage threeSamples);
   (envAt (Q2Qc 5) 6000, audioMessage threeSamples)].

(** One second and half a second of silence at 24 kHz. *)
Definition chunkA : string := String.concat "" (replicate (160 * 100) "AAAA").
Definition chunkB : string := String.concat "" (replicate (80 * 100) "AAAA").

Definition decodingRun : list Event :=
  [ClickStart true; SessionResolved 1;
   OnMessage (envAt 0 1000) (audioMessage threeSamples);
   OnMessage (envAt 0 1100) (audioMessage threeSamples);
   OnEnded 0].

End Runs.

Module FeedbackListRuns.
Import FeedbackListComponent.

(** Two events recorded in the same millisecond, and a later one. *)
Definition tipPace : FeedbackMessage :=
  {| fb_id := "a1"; fb_category := Some "Pace";
     fb_message := Some "Slow down a little";
     fb_sentiment := Some "improvement"; fb_timestamp := 5000 |}.

Definition tipTone : FeedbackMessage :=
  {| fb_id := "b2"; fb_category := Some "Tone";
     fb_message := Some "Good energy";
     fb_sentiment := Some "positive"; fb_timestamp := 5000 |}.

Definition tipContent : FeedbackMessage :=
  {| fb_id := "c3"; fb_category := Some "Content";
     fb_message := Some "Clear structure";
     fb_sentiment := Some "positive"; fb_timestamp := 9000 |}.

Definition history : Store := {[ 0%nat := [tipPace; tipTone; tipContent] ]}.

End FeedbackListRuns.

(** ** handleFrame *)

(** The argument of [session.sendRealtimeInput] for a video frame. *)
Record Media := {
  media_data : option string;
  media_mimeType : string
}.

(** [handleFrame]: the frames it sends.  The callback is rebuilt whenever
    [isActive] changes; [isActiveSeen] is the value it closed over, while
    [sessionRef.current] is read when the frame arrives.  [base64] is what
    the preview passes, [None] when it is [undefined]. *)
Definition handleFrame (isActiveSeen : bool) (base64 : option string)
    (st : App) : list Media :=
  if bool_decide (sessionRef st ≠ None) && isActiveSeen
  then [{| media_data := base64; media_mimeType := "image/jpeg" |}]
  else [].

(** ** What [App] renders *)

Inductive HeaderButton := StartInterview | EndSession.

(** One entry of the live transcript: the alignment class of its row and
    its text. *)
Record Bubble := {
  bubble_justify : string;
  bubble_text : string
}.

Inductive TranscriptView :=
| TranscriptPlaceholder
| Bubbles (rows : list Bubble).

(** components/InterviewerAvatar: the status line under the avatar. *)
Definition InterviewerAvatar (isSpeaking : bool) : string :=
  if isSpeaking then "Speaking..." else "Listening...".

Definition bubbleOf (t : TranscriptionEntry) : Bubble :=
  {| bubble_justify :=
       if bool_decide (role t = user) then "justify-end" else "justify-start";
     bubble_text := text t |}.

(** The parts of the page that depend on the state: the header button, the
    [isActive] passed to the video preview, the avatar's status line, the
    transcript area, the counter of the performance feed, the error overlay
    (its message when shown) and whether the splash screen is shown. *)
Record AppView := {
  headerButton : HeaderButton;
  previewIsActive : bool;
  avatarStatus : string;
  transcriptArea : TranscriptView;
  feedbackCounter : nat;
  errorOverlay : option string;
  splashScreen : bool
}.

Definition render (st : App) : AppView :=
  {| headerButton := if negb (isActive st) then StartInterview else EndSession;
     previewIsActive := isActive st;
     avatarStatus := InterviewerAvatar (isSpeaking st);
     transcriptArea :=
       if bool_decide (length (transcriptions st) = 0%nat)
       then TranscriptPlaceholder
       else Bubbles (map bubbleOf (transcriptions st));
     feedbackCounter := length (feedbacks st);
     errorOverlay :=
       match error st with
       | Some e => if truthy e then Some e else None
       | None => None
       end;
     splashScreen :=
       negb (isActive st) && bool_decide (length (transcriptions st) = 0%nat) |}.

(** ** What [FeedbackList] renders *)

Module FeedbackListView.
Import FeedbackListComponent.

(** One feedback card: its React key, the sentiment-dependent part of its
    class name, and the category, time and message it shows. *)
Record Card := {
  card_key : string;
  card_className : string;
  card_category : option string;
  card_time : Z;
  card_message : option string
}.

(** The conditional part of the card's class name. *)
Definition sentimentClass (s : option string) : string :=
  if bool_decide (s = Some (Sentiment_value POSITIVE))
  then "bg-emerald-950/20 border-emerald-500 text-emerald-200"
  else if bool_decide (s = Some (Sentiment_value IMPROVEMENT))
  then "bg-amber-950/20 border-amber-500 text-amber-200"
  else "bg-slate-800/50 border-slate-500 text-slate-200".

Definition cardOf (fb : FeedbackMessage) : Card :=
  {| card_key := fb_id fb;
     card_className := sentimentClass (fb_sentiment fb);
     card_category := fb_category fb;
     card_time := fb_timestamp fb;
     card_message := fb_message fb |}.

Inductive View :=
| CoachTipsPlaceholder
| Cards (cards : list Card).

(** The returned element, from the sorted array. *)
Definition viewOf (sortedFeedbacks : list FeedbackMessage) : View :=
  if bool_decide (length sortedFeedbacks = 0%nat)
  then CoachTipsPlaceholder
  else Cards (map cardOf sortedFeedbacks).

(** The component: what it renders, and the store after rendering. *)
Definition renderFeedbackList (feedbacks : nat) (σ : Store)
    : option (View * Store) :=
  match FeedbackList feedbacks σ with
  | Some (sorted, σ') => Some (viewOf sorted, σ')
  | None => None
  end.

End FeedbackListView.

(** ** components/VideoPreview *)

Module VideoPreviewComponent.

(** [s.split(',')]: the pieces of [s] between commas. *)
Fixpoint splitComma (s : string) : list string :=
  match s with
  | EmptyString => [""]
  | String c rest =>
    if Ascii.eqb c ","
    then "" :: splitComma rest
    else match splitComma rest with
         | piece :: pieces => String c piece :: pieces
         | [] => [String c ""]
         end
  end.

(** [canvas.toDataURL('image/jpeg', 0.6).split(',')[1]], from the data
    URL: [None] when the element is [undefined]. *)
Definition base64Frame (dataUrl : string) : option string :=
  splitComma dataUrl !! 1%nat.

(** One run of the effect of [VideoPreview]: the variables [stream] and
    [interval] of its closure (the identities of the media stream and of the
    timer), and around them whether [getUserMedia] is still pending, whether
    the tracks of the stream run, whether the timer is set, whether the
    cleanup has run, whether the video and canvas elements are attached
    ([videoRef.current] and [canvasRef.current] are not null), what the
    video element shows and the frames handed to [onFrame], oldest first. *)
Record EffectRun := {
  stream : option nat;
  interval : option nat;
  pending : bool;
  tracksLive : bool;
  timerSet : bool;
  cleanedUp : bool;
  attached : bool;
  srcObject : option nat;
  framesSent : list (option string)
}.

(** The effect starts, the elements being mounted: [startStream] is called
    when [isActive]. *)
Definition useEffect (isActive : bool) : EffectRun :=
  {| stream := None; interval := None; pending := isActive;
     tracksLive := false; timerSet := false; cleanedUp := false;
     attached := true; srcObject := None; framesSent := [] |}.

(** What happens to a run: [getUserMedia] resolves with stream [s] (and
    [setInterval] then returns timer [t]) or rejects; the timer fires and
    the canvas context yields [dataUrl], or it fires and [getContext('2d')]
    yields null; React runs the cleanup; the component is unmounted, which
    detaches the elements from the refs. *)
Inductive EffectEvent :=
| MediaResolved (s : nat) (t : nat)
| MediaRejected
| TimerFired (dataUrl : string)
| TimerFiredWithoutContext
| Cleanup
| Detached.

(** [hasOnFrame] tells whether the [onFrame] prop is given.  The stream
    is shown only [if (videoRef.current)]; a firing of the timer draws and
    hands over a frame only when [videoRef.current && canvasRef.current]
    and the context is not null. *)
Definition effectStep (hasOnFrame : bool) (r : EffectRun) (ev : EffectEvent)
    : EffectRun :=
  match ev with
  | MediaResolved s t =>
    if pending r then
      {| stream := Some s;
         interval := if hasOnFrame then Some t else interval r;
         pending := false;
         tracksLive := true;
         timerSet := if hasOnFrame then true else timerSet r;
         cleanedUp := cleanedUp r;
         attached := attached r;
         srcObject := if attached r then Some s else srcObject r;
         framesSent := framesSent r |}
    else r
  | MediaRejected =>
    if pending r then
      {| stream := stream r; interval := interval r; pending := false;
         tracksLive := tracksLive r; timerSet := timerSet r;
         cleanedUp := cleanedUp r; attached := attached r;
         srcObject := srcObject r;
         framesSent := framesSent r |}
    else r
  | TimerFired dataUrl =>
    if timerSet r && attached r then
      {| stream := stream r; interval := interval r; pending := pending r;
         tracksLive := tracksLive r; timerSet := timerSet r;
         cleanedUp := cleanedUp r; attached := attached r;
         srcObject := srcObject r;
         framesSent := framesSent r ++ [base64Frame dataUrl] |}
    else r
  | TimerFiredWithoutContext => r
  | Detached =>
    {| stream := stream r; interval := interval r; pending := pending r;
       tracksLive := tracksLive r; timerSet := timerSet r;
       cleanedUp := cleanedUp r; attached := false;
       srcObject := srcObject r;
       framesSent := framesSent r |}
  | Cleanup =>
    if cleanedUp r then r
    else
      {| stream := stream r; interval := interval r; pending := pending r;
         tracksLive := match stream r with
                       | Some _ => false
                       | None => tracksLive r
                       end;
         timerSet := match interval r with
                     | Some _ => false
                     | None => timerSet r
                     end;
         cleanedUp := true; attached := attached r;
         srcObject := srcObject r;
         framesSent := framesSent r |}
  end.

Definition effectRun (hasOnFrame : bool) (evs : list EffectEvent)
    (r : EffectRun) : EffectRun :=
  foldl (effectStep hasOnFrame) r evs.

(** After the cleanup of a run whose stream had arrived. *)
Definition runReleased (r : EffectRun) : Prop :=
  pending r = false ∧ cleanedUp r = true ∧
  tracksLive r = false ∧ timerSet r = false.

(** While the stream has arrived and is held by the closure. *)
Definition runAcquired (r : EffectRun) : Prop :=
  pending r = false ∧ is_Some (stream r) ∧
  (timerSet r = true → is_Some (interval r)) ∧
  (cleanedUp r = true → tracksLive r = false ∧ timerSet r = false).

End VideoPreviewComponent.

(** ** Notions used in the statements about playback *)

(** The play windows of the sources, in insertion order, do not overlap. *)
Definition nonOverlapping (l : list AudioBufferSourceNode) : Prop :=
  StronglySorted (λ a b, (windowEnd a ≤ when b)%Qc) l.

(** The nodes started and the nodes stopped according to a log, in order. *)
Definition startedNodes (es : list Effect) : list nat :=
  omap (λ e, match e with SourceStart n _ => Some n | _ => None end) es.

Definition stoppedNodes (es : list Effect) : list nat :=
  omap (λ e, match e with SourceStop n => Some n | _ => None end) es.

(** What holds of the playback state whenever the component is at rest. *)
Definition wellScheduled (st : App) : Prop :=
  Forall (λ s, (node_id s < nodesCreated st)%nat) (sourcesRef st) ∧
  NoDup (map node_id (sourcesRef st)) ∧
  nonOverlapping (sourcesRef st) ∧
  Forall (λ s, (windowEnd s ≤ nextStartTimeRef st)%Qc) (sourcesRef st) ∧
  (0 ≤ nextStartTimeRef st)%Qc ∧
  startedNodes (effects st) = seq 0 (nodesCreated st) ∧
  Forall (λ n, (n < nodesCreated st)%nat) (stoppedNodes (effects st)) ∧
  Forall (λ s, SourceStart (node_id s) (when s) ∈ effects st) (sourcesRef st).

(** An inbound message flagged [interrupted]. *)
Definition isInterruption (ev : Event) : Prop :=
  match ev with
  | OnMessage _ msg => interrupted msg = true
  | _ => False
  end.

(** An inbound message. *)
Definition isMessage (ev : Event) : Prop :=
  match ev with
  | OnMessage _ _ => True
  | _ => False
  end.

(** Whether a call records a feedback event: it is named provideFeedback
    and carries an arguments object. *)
Definition recordsEvent (fc : FunctionCall) : bool :=
  isProvideFeedback fc && bool_decide (is_Some (fc_args fc)).

(** The readings of [Date.now()] that the updaters of the calls of one
    message take, in the order of the calls, from the k-th call on. *)
Fixpoint callReadings (env : Env) (k : nat) (fcs : list FunctionCall)
    : list Z :=
  match fcs with
  | [] => []
  | fc :: rest =>
    (if recordsEvent fc then [feedbackNow env k] else []) ++
    callReadings env (S k) rest
  end.

Section Readings.

Variable decodeAudioData : string → option AudioBuffer.

(** Whether the audio block of a message completes, so that the handler
    reaches the function calls. *)
Definition audioCompletes (msg : LiveServerMessage) : bool :=
  match audioData msg with
  | Some data =>
    if truthy data then bool_decide (is_Some (decodeAudioData data)) else true
  | None => true
  end.

(** The readings one message has taken for its feedback events. *)
Definition messageReadings (env : Env) (msg : LiveServerMessage) : list Z :=
  if audioCompletes msg
  then match toolCall msg with
       | Some fcs => callReadings env 0 fcs
       | None => []
       end
  else [].

(** The readings taken for the feedback events of the messages of a run,
    in the order in which they are taken. *)
Fixpoint feedbackClocks (evs : list Event) : list Z :=
  match evs with
  | [] => []
  | OnMessage env msg :: rest => messageReadings env msg ++ feedbackClocks rest
  | _ :: rest => feedbackClocks rest
  end.

End Readings.

(** Every provideFeedback call of the event carries an arguments object. *)
Definition callsCarryArgs (ev : Event) : Prop :=
  match ev with
  | OnMessage _ msg =>
    match toolCall msg with
    | Some fcs => Forall (λ fc, isProvideFeedback fc = true →
                                is_Some (fc_args fc)) fcs
    | None => True
    end
  | _ => True
  end.

(** The two messages the component ever puts in [error]. *)
Definition knownError (e : string) : Prop :=
  e = "Communication lost. Please try restarting the session." ∨
  e = "Could not access microphone or camera. Please check permissions.".

(** The error message, when there is one, is one of the two the component
    knows, and the session is then not active. *)
Definition errorMeansInactive (st : App) : Prop :=
  ∀ e, error st = Some e → isActive st = false ∧ knownError e.

(** Whether a string contains a comma. *)
Fixpoint hasComma (s : string) : bool :=
  match s with
  | EmptyString => false
  | String c rest => Ascii.eqb c "," || hasComma rest
  end.

(** The data URLs the canvas yielded when the timer fired, up to the
    moment the elements are detached. *)
Fixpoint attachedUrls (evs : list VideoPreviewComponent.EffectEvent)
    : list string :=
  match evs with
  | [] => []
  | VideoPreviewComponent.Detached :: _ => []
  | VideoPreviewComponent.TimerFired u :: rest => u :: attachedUrls rest
  | _ :: rest => attachedUrls rest
  end.

(** ** More concrete sessions *)

Module MoreRuns.
Import AudioProcessing Runs.

(** A chunk that arrives together with the [interrupted] flag. *)
Definition interruptedChunk : LiveServerMessage :=
  {| audioData := Some threeSamples; interrupted := true;
     inputTranscription := None; outputTranscription := None;
     turnComplete := false; toolCall := None |}.

(** A message that carries the last fragment of a turn and closes it. *)
Definition closingMessage : LiveServerMessage :=
  {| audioData := None; interrupted := false;
     inputTranscription := Some (Some "ler"); outputTranscription := None;
     turnComplete := true; toolCall := None |}.

(** A session with a fragment waiting in the user buffer. *)
Definition pendingApp : App := appendUser (Some "fil") activeApp.


Definition restartRun : list Event :=
  [ClickEnd; ClickStart true; SessionResolved 2].

Definition errorRun : list Event :=
  [ClickStart true; SessionResolved 1; OnError].

Definition twoChunkRun : list Event :=
  [ClickStart true; SessionResolved 1;
   OnMessage (envAt 0 1000) (audioMessage threeSamples);
   OnMessage (envAt (Q2Qc 5) 6000) (audioMessage threeSamples)].

Definition interruptRun : list Event :=
  [ClickStart true; SessionResolved 1;
   OnMessage (envAt 0 1000) (audioMessage threeSamples);
   OnMessage (envAt 0 1100) interruptedMessage].

Definition feedbackRun : list Event :=
  [ClickStart true; SessionResolved 1;
   OnMessage (envAt 0 1000) (toolCallMessage [completeCall; missingSentiment]);
   OnMessage (envAt 0 2000) (toolCallMessage [completeCall])].

End MoreRuns.

(** * Properties *)

(** ** Numbers *)

Lemma Qcmax_ge_l (x y : Qc) : (x ≤ Qcmax x y)%Qc.
Proof. unfold Qcmax. case_decide; [done | apply Qcle_refl]. Qed.

Lemma Qcmax_ge_r (x y : Qc) : (y ≤ Qcmax x y)%Qc.
Proof.
  unfold Qcmax. case_decide as H; [apply Qcle_refl |].
  apply Qclt_le_weak, Qcnot_le_lt, H.
Qed.

Lemma Qcmax_l (x y : Qc) : (y ≤ x)%Qc → Qcmax x y = x.
Proof.
  intros H. unfold Qcmax. case_decide; [| done]. by apply Qcle_antisym.
Qed.

Lemma Qcmax_absorb (x y z : Qc) :
  (y ≤ z)%Qc → Qcmax (Qcmax x y) z = Qcmax x z.
Proof.
  intros Hyz. unfold Qcmax at 2. case_decide as Hxy; [| done].
  unfold Qcmax. rewrite decide_True by done.
  rewrite decide_True; [done |]. by eapply Qcle_trans.
Qed.

(** ** Strings *)

Lemma truthy_false (s : string) : truthy s = false ↔ s = "".
Proof. destruct s; simpl; split; congruence. Qed.

Lemma truthy_true (s : string) : truthy s = true ↔ s ≠ "".
Proof. destruct s; simpl; split; congruence. Qed.

(** ** The handler, one message at a time *)

Section Handling.

Variable decodeAudioData : string → option AudioBuffer.

Lemma onmessage_settle env msg st :
  onmessage decodeAudioData env msg st =
  match handleAudioOutput decodeAudioData env msg st with
  | (Normal, st1) => (Normal, settle env msg st1)
  | (Throw, st1) => (Throw, st1)
  end.
Proof.
  unfold onmessage, andThen at 1.
  destruct (handleAudioOutput decodeAudioData env msg st) as [[|] st1]; [| done].
  unfold settle, andThen, handleInterruptions, handleInputTranscription,
    handleOutputTranscription, handleTurnComplete, handleToolCalls, lift, pass.
  destruct (interrupted msg), (inputTranscription msg),
    (outputTranscription msg), (turnComplete msg), (toolCall msg); reflexivity.
Qed.

Lemma handleAudioOutput_completion env msg st :
  (handleAudioOutput decodeAudioData env msg st).1 = Normal ↔ audioDecodes decodeAudioData msg.
Proof.
  unfold handleAudioOutput, audioDecodes.
  destruct (audioData msg) as [data|]; [| done].
  destruct (truthy data); [| done].
  destruct (decodeAudioData data); simpl; split; done.
Qed.

Lemma onmessage_completion env msg st :
  (onmessage decodeAudioData env msg st).1 = Normal ↔ audioDecodes decodeAudioData msg.
Proof.
  rewrite onmessage_settle, <- (handleAudioOutput_completion env msg st).
  by destruct (handleAudioOutput decodeAudioData env msg st) as [[|] ?].
Qed.

Lemma dispatchAll_eq env k fcs st :
  dispatchAll env k fcs st =
  perform (map SendToolResponse (acknowledged fcs))
    (setFeedbacks (λ prev, recorded env k fcs ++ prev) st).
Proof.
  revert k st. induction fcs as [| fc rest IH]; intros k st.
  - destruct st; unfold perform, setFeedbacks; simpl. by rewrite app_nil_r.
  - simpl. rewrite IH. unfold dispatch, acknowledged.
    rewrite filter_cons.
    destruct (isProvideFeedback fc) eqn:Hfc.
    + rewrite decide_True by done.
      destruct (fc_args fc) as [args|];
        destruct st; unfold perform, setFeedbacks; simpl.
      * f_equal; [by rewrite <- app_assoc | by rewrite <- app_assoc].
      * f_equal; [by rewrite app_nil_r | by rewrite <- app_assoc].
    + rewrite decide_False by done.
      destruct st; unfold perform, setFeedbacks; simpl.
      by rewrite app_nil_r.
Qed.



(** No more events are recorded than acknowledgments are queued. *)
Lemma recorded_le_acknowledged env k fcs :
  (length (recorded env k fcs) ≤ length (acknowledged fcs))%nat.
Proof.
  revert k. unfold acknowledged.
  induction fcs as [| fc rest IH]; intros k; [done |].
  simpl. rewrite filter_cons, length_app. specialize (IH (S k)).
  rewrite length_map in IH.
  destruct (isProvideFeedback fc); [destruct (fc_args fc) as [args|] |].
  - rewrite decide_True by done. simpl. rewrite length_map. lia.
  - rewrite decide_True by done. simpl. rewrite length_map. lia.
  - rewrite decide_False by done. simpl. rewrite length_map. lia.
Qed.

(** As many, when every provideFeedback call carries its arguments. *)
Lemma recorded_all_acknowledged env k fcs :
  Forall (λ fc, isProvideFeedback fc = true → is_Some (fc_args fc)) fcs →
  length (recorded env k fcs) = length (acknowledged fcs).
Proof.
  revert k. unfold acknowledged.
  induction fcs as [| fc rest IH]; intros k Hall; [done |].
  apply Forall_cons in Hall as [Hfc Hrest].
  simpl. rewrite filter_cons, length_app. specialize (IH (S k) Hrest).
  rewrite length_map in IH.
  destruct (isProvideFeedback fc).
  - destruct (Hfc eq_refl) as [args ->].
    rewrite decide_True by done. simpl. rewrite length_map. lia.
  - rewrite decide_False by done. simpl. rewrite length_map. lia.
Qed.


(** What [settle] leaves alone. *)
Lemma settle_sources env msg st :
  sourcesRef (settle env msg st) =
  if interrupted msg then [] else sourcesRef st.
Proof.
  unfold settle.
  destruct (toolCall msg); [rewrite dispatchAll_eq |];
    destruct (interrupted msg), (inputTranscription msg),
      (outputTranscription msg), (turnComplete msg); simpl;
    unfold flushTurn; try (destruct (_ || _)); reflexivity.
Qed.

Lemma settle_nextStartTime env msg st :
  nextStartTimeRef (settle env msg st) =
  if interrupted msg then 0%Qc else nextStartTimeRef st.
Proof.
  unfold settle.
  destruct (toolCall msg); [rewrite dispatchAll_eq |];
    destruct (interrupted msg), (inputTranscription msg),
      (outputTranscription msg), (turnComplete msg); simpl;
    unfold flushTurn; try (destruct (_ || _)); reflexivity.
Qed.

Lemma settle_isSpeaking env msg st :
  isSpeaking (settle env msg st) =
  if interrupted msg then false else isSpeaking st.
Proof.
  unfold settle.
  destruct (toolCall msg); [rewrite dispatchAll_eq |];
    destruct (interrupted msg), (inputTranscription msg),
      (outputTranscription msg), (turnComplete msg); simpl;
    unfold flushTurn; try (destruct (_ || _)); reflexivity.
Qed.

Lemma settle_effects env msg st :
  effects (settle env msg st) =
  effects st ++
  (if interrupted msg
   then map (λ s, SourceStop (node_id s)) (sourcesRef st) else []) ++
  match toolCall msg with
  | Some fcs => map SendToolResponse (acknowledged fcs)
  | None => []
  end.
Proof.
  unfold settle.
  destruct (toolCall msg); [rewrite dispatchAll_eq |];
    destruct (interrupted msg), (inputTranscription msg),
      (outputTranscription msg), (turnComplete msg); simpl;
    unfold flushTurn; try (destruct (_ || _)); simpl;
    rewrite ?app_nil_r, <- ?app_assoc; reflexivity.
Qed.

Lemma settle_feedbacks env msg st :
  feedbacks (settle env msg st) =
  match toolCall msg with
  | Some fcs => recorded env 0 fcs ++ feedbacks st
  | None => feedbacks st
  end.
Proof.
  unfold settle.
  destruct (toolCall msg); [rewrite dispatchAll_eq |];
    destruct (interrupted msg), (inputTranscription msg),
      (outputTranscription msg), (turnComplete msg); simpl;
    unfold flushTurn; try (destruct (_ || _)); reflexivity.
Qed.

(** The audio block, when the chunk decodes. *)
Lemma handleAudioOutput_decoded env msg st data audioBuffer :
  audioData msg = Some data → truthy data = true →
  decodeAudioData data = Some audioBuffer →
  ∃ st', handleAudioOutput decodeAudioData env msg st = (Normal, st') ∧
    let source := {| node_id := nodesCreated st; buffer := audioBuffer;
                     when := Qcmax (nextStartTimeRef st) (currentTime env) |} in
    sourcesRef st' = sourcesRef st ++ [source] ∧
    nextStartTimeRef st' = windowEnd source ∧
    isSpeaking st' = true ∧
    effects st' = effects st ++ [SourceStart (node_id source) (when source)].
Proof.
  intros Hd Ht Hdec. unfold handleAudioOutput. rewrite Hd, Ht, Hdec.
  eexists; split; [reflexivity |]. simpl. done.
Qed.

(** The audio block, when there is no chunk in the message. *)
Lemma handleAudioOutput_absent env msg st :
  match audioData msg with Some data => truthy data = false | None => True end →
  handleAudioOutput decodeAudioData env msg st = (Normal, st).
Proof.
  unfold handleAudioOutput. destruct (audioData msg) as [data|]; [| done].
  by intros ->.
Qed.

End Handling.

Lemma append_nil_r (s : string) : s +:+ "" = s.
Proof.
  induction s as [| a s IH]; [done |].
  change (String a (s +:+ "") = String a s). by rewrite IH.
Qed.

Lemma append_assoc (s t u : string) : (s +:+ t) +:+ u = s +:+ (t +:+ u).
Proof.
  induction s as [| a s IH]; [done |].
  change (String a ((s +:+ t) +:+ u) = String a (s +:+ (t +:+ u))).
  by rewrite IH.
Qed.

(** ** Interruption *)

Section Interruption.

Variable decodeAudioData : string → option AudioBuffer.

(** The audio block only ever adds: to the set of sources and to the log. *)
Lemma handleAudioOutput_grows env msg st :
  ∃ new es,
    sourcesRef (handleAudioOutput decodeAudioData env msg st).2 =
      sourcesRef st ++ new ∧
    effects (handleAudioOutput decodeAudioData env msg st).2 =
      effects st ++ es.
Proof.
  unfold handleAudioOutput.
  destruct (audioData msg) as [data|];
    [destruct (truthy data); [destruct (decodeAudioData data) |] |]; simpl.
  - by eexists [_], [_].
  - exists [], []. by rewrite !app_nil_r.
  - exists [], []. by rewrite !app_nil_r.
  - exists [], []. by rewrite !app_nil_r.
Qed.

(** C2.  Whatever the state before (any number of sources, any
    [nextStartTimeRef]): the interruption block stops every source of the
    set, empties the set, resets [nextStartTimeRef] to 0 and clears the
    speaking indicator; and so does every message flagged [interrupted] once
    its handler has completed, for all sources that were in the set when the
    message arrived. *)
Theorem C2_interrupt_resets_playback env msg st st' :
  interrupted msg = true →
  onmessage decodeAudioData env msg st = (Normal, st') →
  (sourcesRef (interrupt st) = [] ∧
   nextStartTimeRef (interrupt st) = 0%Qc ∧
   isSpeaking (interrupt st) = false ∧
   effects (interrupt st) =
     effects st ++ map (λ s, SourceStop (node_id s)) (sourcesRef st)) ∧
  sourcesRef st' = [] ∧
  nextStartTimeRef st' = 0%Qc ∧
  isSpeaking st' = false ∧
  ∃ es, effects st' = effects st ++ es ∧
    ∀ s, s ∈ sourcesRef st → SourceStop (node_id s) ∈ es.
Proof.
  intros Hint Hm. split; [done |].
  rewrite onmessage_settle in Hm.
  destruct (handleAudioOutput_grows env msg st) as (new & es0 & Hsrc & Heff).
  destruct (handleAudioOutput decodeAudioData env msg st) as [[|] st1];
    [| done].
  injection Hm as <-. simpl in Hsrc, Heff.
  rewrite settle_sources, settle_nextStartTime, settle_isSpeaking,
    settle_effects, Hint.
  repeat split; try done.
  rewrite Heff, Hsrc, <- app_assoc. eexists; split; [reflexivity |].
  intros s Hs. rewrite !elem_of_app. right; left.
  apply (list_elem_of_fmap_2 (λ s, SourceStop (node_id s))).
  apply elem_of_app. by left.
Qed.

End Interruption.

(** ** Decode failure *)

Section DecodeFailure.

Variable decodeAudioData : string → option AudioBuffer.

(** C5, as the code has it.  When the decode of an inbound chunk fails the
    handler ends there: no source is created, started or stopped and the set
    of sources is exactly as before, and no duration is added to
    [nextStartTimeRef]; but [nextStartTimeRef] has already been raised to
    [max(nextStartTimeRef, currentTime)] (so it is as before only when the
    clock has not passed it) and the speaking indicator has been set. *)
Theorem C5_failed_decode_keeps_sources env msg st data :
  audioData msg = Some data → truthy data = true →
  decodeAudioData data = None →
  ∃ st', onmessage decodeAudioData env msg st = (Throw, st') ∧
    sourcesRef st' = sourcesRef st ∧
    effects st' = effects st ∧
    nodesCreated st' = nodesCreated st ∧
    nextStartTimeRef st' = Qcmax (nextStartTimeRef st) (currentTime env) ∧
    ((currentTime env ≤ nextStartTimeRef st)%Qc →
       nextStartTimeRef st' = nextStartTimeRef st) ∧
    isSpeaking st' = true ∧
    feedbacks st' = feedbacks st ∧
    transcriptions st' = transcriptions st ∧
    transcriptionBufferRef st' = transcriptionBufferRef st.
Proof.
  intros Hd Ht Hdec. rewrite onmessage_settle.
  unfold handleAudioOutput. rewrite Hd, Ht, Hdec.
  eexists; split; [reflexivity |]. simpl.
  repeat split; try done. apply Qcmax_l.
Qed.

End DecodeFailure.

(** ** Transcription *)

Section Transcription.

Variable decodeAudioData : string → option AudioBuffer.

(** C6.  The [turnComplete] branch: nothing is added to the transcript when
    both buffers are empty; one entry with the role and text of the buffer
    when exactly one is non-empty; the user entry then the model entry when
    both are; and both buffers are empty afterwards in every case. *)
Theorem C6_flushTurn env st :
  let u := buf_user (transcriptionBufferRef st) in
  let m := buf_model (transcriptionBufferRef st) in
  let st' := flushTurn env st in
  transcriptionBufferRef st' = {| buf_user := ""; buf_model := "" |} ∧
  (u = "" → m = "" → transcriptions st' = transcriptions st) ∧
  (u ≠ "" → m = "" →
     transcriptions st' =
     transcriptions st ++
       [{| role := user; text := u; timestamp := dateNow env |}]) ∧
  (u = "" → m ≠ "" →
     transcriptions st' =
     transcriptions st ++
       [{| role := model; text := m; timestamp := dateNow env |}]) ∧
  (u ≠ "" → m ≠ "" →
     transcriptions st' =
     transcriptions st ++
       [{| role := user; text := u; timestamp := dateNow env |};
        {| role := model; text := m; timestamp := dateNow env |}]).
Proof.
  intros u m st'. subst st'. unfold flushTurn. fold u m.
  split; [by destruct (truthy u || truthy m) |].
  repeat split; intros Hu Hm.
  - apply truthy_false in Hu, Hm. by rewrite Hu, Hm.
  - apply truthy_true in Hu. apply truthy_false in Hm.
    unfold turnEntries. by rewrite Hu, Hm.
  - apply truthy_false in Hu. apply truthy_true in Hm.
    unfold turnEntries. by rewrite Hu, Hm.
  - apply truthy_true in Hu, Hm. unfold turnEntries. by rewrite Hu, Hm.
Qed.

End Transcription.

Section Fragments.

Variable decodeAudioData : string → option AudioBuffer.

Lemma deliver_cons env r f ds st :
  deliver decodeAudioData env ((r, f) :: ds) st =
  deliver decodeAudioData env ds
    (match r with
     | user => appendUser (Some f) st
     | model => appendModel (Some f) st
     end).
Proof. by destruct r. Qed.

Lemma deliver_buffers env ds st :
  buf_user (transcriptionBufferRef (deliver decodeAudioData env ds st)) =
    buf_user (transcriptionBufferRef st) +:+
    foldr String.append "" (fragmentsOf user ds) ∧
  buf_model (transcriptionBufferRef (deliver decodeAudioData env ds st)) =
    buf_model (transcriptionBufferRef st) +:+
    foldr String.append "" (fragmentsOf model ds) ∧
  transcriptions (deliver decodeAudioData env ds st) = transcriptions st.
Proof.
  revert st. induction ds as [| [r f] ds IH]; intros st.
  - simpl. by rewrite !append_nil_r.
  - rewrite deliver_cons.
    destruct (IH (match r with
                  | user => appendUser (Some f) st
                  | model => appendModel (Some f) st
                  end)) as (IHu & IHm & IHt).
    rewrite IHu, IHm, IHt. unfold fragmentsOf.
    destruct r; simpl; by rewrite ?append_assoc.
Qed.

(** C9.  Fragments are appended to the buffer of their channel in order of
    arrival, nothing reordered and nothing dropped: after any sequence of
    fragment messages the user buffer is what it was followed by the user
    fragments in order, and likewise the model buffer; the turn that is then
    closed records exactly these texts.  In particular "fil" then "ler" on
    the user channel, then turn complete, yields the one entry
    user/"filler". *)
Theorem C9_append_is_concatenation env envT (ds : list (Role * string)) st :
  let st' := deliver decodeAudioData env ds st in
  let u := buf_user (transcriptionBufferRef st) +:+
           foldr String.append "" (fragmentsOf user ds) in
  let m := buf_model (transcriptionBufferRef st) +:+
           foldr String.append "" (fragmentsOf model ds) in
  buf_user (transcriptionBufferRef st') = u ∧
  buf_model (transcriptionBufferRef st') = m ∧
  transcriptions
    (run decodeAudioData [OnMessage envT turnCompleteMessage] st') =
    transcriptions st ++ turnEntries u m (dateNow envT) ∧
  transcriptions
    (run decodeAudioData
       [OnMessage env (transcriptionDelta user "fil");
        OnMessage env (transcriptionDelta user "ler");
        OnMessage envT turnCompleteMessage] initialApp) =
    [{| role := user; text := "filler"; timestamp := dateNow envT |}].
Proof.
  intros st' u m. subst st' u m.
  destruct (deliver_buffers env ds st) as (Hu & Hm & Ht).
  split; [done |]. split; [done |]. split; [| reflexivity].
  change (run decodeAudioData [OnMessage envT turnCompleteMessage]
            (deliver decodeAudioData env ds st))
    with (flushTurn envT (deliver decodeAudioData env ds st)).
  unfold flushTurn. rewrite Hu, Hm. unfold turnEntries.
  by destruct (truthy _), (truthy _); simpl; rewrite ?Ht, ?app_nil_r.
Qed.

End Fragments.

(** ** Tool calls *)

Lemma toolResponses_sent (rs : list FunctionResponse) :
  toolResponses (map SendToolResponse rs) = rs.
Proof. induction rs as [| r rs IH]; [done |]. simpl. by rewrite IH. Qed.

Lemma toolResponses_stops (l : list AudioBufferSourceNode) :
  toolResponses (map (λ s, SourceStop (node_id s)) l) = [].
Proof. induction l as [| s l IH]; [done |]. by simpl. Qed.

Section ToolCalls.

Variable decodeAudioData : string → option AudioBuffer.

Lemma handleAudioOutput_effects env msg st :
  ∃ es,
    effects (handleAudioOutput decodeAudioData env msg st).2 = effects st ++ es ∧
    toolResponses es = [] ∧
    feedbacks (handleAudioOutput decodeAudioData env msg st).2 = feedbacks st.
Proof.
  unfold handleAudioOutput.
  destruct (audioData msg) as [data|];
    [destruct (truthy data); [destruct (decodeAudioData data) |] |]; simpl.
  - by eexists [_].
  - exists []. by rewrite app_nil_r.
  - exists []. by rewrite app_nil_r.
  - exists []. by rewrite app_nil_r.
Qed.

(** C4, as the code has it.  When the handler of a tool-call message
    completes, it has sent exactly one acknowledgment for each call named
    provideFeedback, in the order of the calls, carrying the id and name of
    that call and the fixed payload "feedback_received" whatever the call's
    arguments are; calls of any other name get none. *)
Theorem C4_one_ack_per_provideFeedback_call env msg st st' fcs :
  toolCall msg = Some fcs →
  onmessage decodeAudioData env msg st = (Normal, st') →
  (∃ es, effects st' = effects st ++ es ∧
     toolResponses es =
     map acknowledgment
       (filter (λ fc, isProvideFeedback fc = true) fcs)) ∧
  (∀ fc, isProvideFeedback fc = true ↔ fc_name fc = Some "provideFeedback") ∧
  (∀ fc, acknowledgment fc =
         {| fr_id := fc_id fc; fr_name := fc_name fc;
            fr_result := "feedback_received" |}).
Proof.
  intros Htc Hm. split; [| split; [| done]].
  - rewrite onmessage_settle in Hm.
    destruct (handleAudioOutput_effects env msg st) as (es0 & Heff & Hes0 & _).
    destruct (handleAudioOutput decodeAudioData env msg st) as [[|] st1];
      [| done].
    injection Hm as <-. simpl in Heff.
    rewrite settle_effects, Htc, Heff, <- app_assoc.
    eexists; split; [reflexivity |].
    unfold toolResponses in *. rewrite !omap_app, Hes0.
    fold (toolResponses (map SendToolResponse (acknowledged fcs))).
    rewrite toolResponses_sent.
    destruct (interrupted msg); [| done].
    fold (toolResponses (map (λ s, SourceStop (node_id s)) (sourcesRef st1))).
    by rewrite toolResponses_stops.
  - intros fc. unfold isProvideFeedback. apply bool_decide_eq_true.
Qed.


End ToolCalls.

(** ** Gapless scheduling *)

Section Scheduling.

Variable decodeAudioData : string → option AudioBuffer.

Lemma enqueueAll_cons c chunks st :
  enqueueAll decodeAudioData (c :: chunks) st =
  enqueueAll decodeAudioData chunks (onmessage decodeAudioData c.1 c.2 st).2.
Proof. reflexivity. Qed.

Lemma enqueue_one env msg st :
  enqueues decodeAudioData msg →
  ∃ h, sourcesRef (onmessage decodeAudioData env msg st).2 =
         sourcesRef st ++ [h] ∧
       when h = Qcmax (nextStartTimeRef st) (currentTime env) ∧
       nextStartTimeRef (onmessage decodeAudioData env msg st).2 =
         windowEnd h ∧
       SourceStart (node_id h) (when h) ∈
         effects (onmessage decodeAudioData env msg st).2.
Proof.
  intros (Hint & data & Hd & Ht & [b Hb]).
  destruct (handleAudioOutput_decoded decodeAudioData env msg st data b Hd Ht Hb)
    as (st1 & Hst1 & Hsrc & Hnext & _ & Heff).
  rewrite onmessage_settle, Hst1. simpl.
  rewrite settle_sources, settle_nextStartTime, settle_effects, Hint.
  eexists. split; [exact Hsrc |]. split; [done |]. split; [exact Hnext |].
  rewrite Heff, !elem_of_app. left; right. apply list_elem_of_here.
Qed.

(** Events that are no audio chunk and no interruption leave
    [nextStartTimeRef] alone. *)
Lemma quiet_step_nextStartTime ev st :
  match ev with
  | OnMessage _ msg =>
    interrupted msg = false ∧
    match audioData msg with Some d => truthy d = false | None => True end
  | _ => True
  end →
  nextStartTimeRef (step decodeAudioData st ev) = nextStartTimeRef st.
Proof.
  destruct ev as [granted| s | | env msg | n | | | |]; simpl; intros Hq.
  - by destruct granted.
  - done.
  - done.
  - destruct Hq as [Hint Habs].
    rewrite onmessage_settle, handleAudioOutput_absent by done.
    simpl. by rewrite settle_nextStartTime, Hint.
  - unfold onended. by case_bool_decide.
  - unfold onerror, stopSession. simpl. by destruct (sessionRef st).
  - done.
  - unfold stopSession. by destruct (sessionRef st).
  - done.
Qed.

(** A chunk dropped by a failed decode does not move the start of the
    chunk that follows it, the clock being monotone. *)
Lemma enqueue_after_failed_decode env env' msg msg' st data :
  audioData msg = Some data → truthy data = true →
  decodeAudioData data = None →
  enqueues decodeAudioData msg' →
  (currentTime env ≤ currentTime env')%Qc →
  ∃ h, sourcesRef
         (onmessage decodeAudioData env' msg'
            (onmessage decodeAudioData env msg st).2).2 =
         sourcesRef st ++ [h] ∧
       when h = Qcmax (nextStartTimeRef st) (currentTime env').
Proof.
  intros Hd Ht Hdec Henq Hclock.
  destruct (enqueue_one env' msg' (onmessage decodeAudioData env msg st).2 Henq)
    as (h & Hsrc & Hwhen & _).
  exists h. rewrite Hsrc, Hwhen, onmessage_settle.
  unfold handleAudioOutput. rewrite Hd, Ht, Hdec. simpl.
  split; [done |]. by apply Qcmax_absorb.
Qed.

Lemma enqueueAll_schedule chunks st :
  Forall (λ c, enqueues decodeAudioData c.2) chunks →
  ∃ hs, sourcesRef (enqueueAll decodeAudioData chunks st) = sourcesRef st ++ hs ∧
    length hs = length chunks ∧
    (∀ i c h, chunks !! i = Some c → hs !! i = Some h →
       when h =
         Qcmax (nextStartTimeRef (enqueueAll decodeAudioData (take i chunks) st))
               (currentTime c.1) ∧
       nextStartTimeRef (enqueueAll decodeAudioData (take (S i) chunks) st) = windowEnd h ∧
       SourceStart (node_id h) (when h) ∈
         effects (enqueueAll decodeAudioData (take (S i) chunks) st)).
Proof.
  intros Hall. revert st.
  induction Hall as [| c chunks Hc Hall IH]; intros st.
  - exists []. rewrite app_nil_r. by repeat split.
  - destruct (enqueue_one c.1 c.2 st Hc) as (h0 & Hsrc & Hwhen & Hnext & Hlog).
    destruct (IH (onmessage decodeAudioData c.1 c.2 st).2)
      as (hs & Hsrcs & Hlen & Hsteps).
    exists (h0 :: hs). rewrite enqueueAll_cons, Hsrcs, Hsrc, <- app_assoc.
    split; [done |]. split; [simpl; by rewrite Hlen |].
    intros [| i] c' h Hi Hh; simpl in Hi, Hh.
    + injection Hi as <-. injection Hh as <-. by repeat split.
    + rewrite !firstn_cons, !enqueueAll_cons. by apply Hsteps.
Qed.

(** C1, as the code has it.  For every sequence of chunks enqueued with no
    interruption, each chunk is started at [max(nextStartTimeRef,
    currentTime)] and [nextStartTimeRef] is then advanced by exactly the
    duration of the decoded chunk.  Consecutive play windows never overlap:
    the later source starts at the end of the earlier one or, when the clock
    has already passed that end, at the clock; it starts exactly at the end
    whenever the clock has not passed it. *)
Theorem C1_gapless_schedule (chunks : list (Env * LiveServerMessage)) st :
  Forall (λ c, enqueues decodeAudioData c.2) chunks →
  ∃ hs, sourcesRef (enqueueAll decodeAudioData chunks st) = sourcesRef st ++ hs ∧
    length hs = length chunks ∧
    (∀ i c h, chunks !! i = Some c → hs !! i = Some h →
       when h =
         Qcmax (nextStartTimeRef (enqueueAll decodeAudioData (take i chunks) st))
               (currentTime c.1) ∧
       nextStartTimeRef (enqueueAll decodeAudioData (take (S i) chunks) st) =
         (when h + duration (buffer h))%Qc ∧
       SourceStart (node_id h) (when h) ∈
         effects (enqueueAll decodeAudioData (take (S i) chunks) st)) ∧
    (∀ i c h h', hs !! i = Some h → hs !! S i = Some h' →
       chunks !! S i = Some c →
       when h' = Qcmax (when h + duration (buffer h))%Qc (currentTime c.1) ∧
       (when h + duration (buffer h) ≤ when h')%Qc ∧
       ((currentTime c.1 ≤ when h + duration (buffer h))%Qc →
          when h' = (when h + duration (buffer h))%Qc)).
Proof.
  intros Hall.
  destruct (enqueueAll_schedule chunks st Hall) as (hs & Hsrc & Hlen & Hsteps).
  exists hs. split; [done |]. split; [done |]. split; [exact Hsteps |].
  intros i c h h' Hh Hh' Hc.
  assert (is_Some (chunks !! i)) as [c0 Hc0].
  { apply lookup_lt_is_Some. rewrite <- Hlen. by eapply lookup_lt_Some. }
  destruct (Hsteps i c0 h Hc0 Hh) as (_ & Hnext & _).
  destruct (Hsteps (S i) c h' Hc Hh') as (Hwhen & _ & _).
  rewrite Hnext in Hwhen. unfold windowEnd in Hwhen.
  split; [done |]. split.
  - rewrite Hwhen. apply Qcmax_ge_l.
  - intros Hclock. rewrite Hwhen. by apply Qcmax_l.
Qed.

End Scheduling.

(** ** The speaking indicator *)

Section Speaking.

Variable decodeAudioData : string → option AudioBuffer.

Lemma onended_cases n st :
  (sourcesRef (onended n st) = [] ∧ isSpeaking (onended n st) = false) ∨
  (sourcesRef (onended n st) ≠ [] ∧ sourcesRef st ≠ [] ∧
   isSpeaking (onended n st) = isSpeaking st).
Proof.
  unfold onended. simpl. case_bool_decide as Hlen.
  - left. simpl. split; [| done]. by apply nil_length_inv.
  - right. simpl. repeat split.
    + intros Hnil. by rewrite Hnil in Hlen.
    + intros Hnil. rewrite Hnil in Hlen. by apply Hlen.
Qed.

Lemma handleAudioOutput_speaking env msg st :
  let r := handleAudioOutput decodeAudioData env msg st in
  (r = (Normal, st)) ∨
  (r.1 = Normal ∧ sourcesRef r.2 ≠ [] ∧ isSpeaking r.2 = true) ∨
  (r.1 = Throw ∧ sourcesRef r.2 = sourcesRef st ∧ isSpeaking r.2 = true).
Proof.
  unfold handleAudioOutput.
  destruct (audioData msg) as [data|];
    [destruct (truthy data); [destruct (decodeAudioData data) |] |]; simpl;
    [right; left | right; right | left | left]; try done.
  repeat split. by intros ?%app_nil_r_inv.
Qed.

Lemma step_audibleImpliesSpeaking st ev :
  audibleImpliesSpeaking st →
  audibleImpliesSpeaking (step decodeAudioData st ev).
Proof.
  unfold audibleImpliesSpeaking. intros Hinv.
  destruct ev as [granted| s | | env msg | n | | | |]; simpl; try done.
  - by destruct granted.
  - rewrite onmessage_settle.
    destruct (handleAudioOutput_speaking env msg st) as [Hr | [Hr | Hr]].
    + rewrite Hr. simpl. rewrite settle_sources, settle_isSpeaking.
      by destruct (interrupted msg).
    + destruct (handleAudioOutput decodeAudioData env msg st) as [c st1].
      simpl in Hr. destruct Hr as (-> & Hsrc & Hsp). simpl.
      rewrite settle_sources, settle_isSpeaking.
      by destruct (interrupted msg).
    + destruct (handleAudioOutput decodeAudioData env msg st) as [c st1].
      simpl in Hr. by destruct Hr as (-> & Hsrc & Hsp).
  - destruct (onended_cases n st) as [[Hs _] | (_ & Hs & Hsp)].
    + by rewrite Hs.
    + rewrite Hsp. intros _. by apply Hinv.
Qed.

Lemma step_speakingImpliesAudible st ev :
  eventDecodes decodeAudioData ev →
  audibleImpliesSpeaking st → speakingImpliesAudible st →
  speakingImpliesAudible (step decodeAudioData st ev).
Proof.
  unfold audibleImpliesSpeaking, speakingImpliesAudible.
  intros Hdec Hinv1 Hinv2.
  destruct ev as [granted| s | | env msg | n | | | |]; simpl; try done.
  - by destruct granted.
  - simpl in Hdec.
    apply (handleAudioOutput_completion decodeAudioData env msg st) in Hdec.
    rewrite onmessage_settle.
    destruct (handleAudioOutput_speaking env msg st) as [Hr | [Hr | Hr]].
    + rewrite Hr. simpl. rewrite settle_sources, settle_isSpeaking.
      by destruct (interrupted msg).
    + destruct (handleAudioOutput decodeAudioData env msg st) as [c st1].
      simpl in Hr. destruct Hr as (-> & Hsrc & Hsp). simpl.
      rewrite settle_sources, settle_isSpeaking.
      by destruct (interrupted msg).
    + destruct Hr as (Hr & _). by rewrite Hr in Hdec.
  - destruct (onended_cases n st) as [[_ Hsp] | (Hs & _ & _)].
    + by rewrite Hsp.
    + done.
Qed.

Lemma run_speaking evs st :
  audibleImpliesSpeaking st →
  audibleImpliesSpeaking (run decodeAudioData evs st) ∧
  (Forall (eventDecodes decodeAudioData) evs → speakingImpliesAudible st →
   speakingImpliesAudible (run decodeAudioData evs st)).
Proof.
  revert st. induction evs as [| ev evs IH]; intros st Hinv1; [done |].
  simpl. destruct (IH (step decodeAudioData st ev)) as [IH1 IH2].
  { by apply step_audibleImpliesSpeaking. }
  split; [done |]. intros Hall Hinv2.
  apply Forall_cons in Hall as [Hev Hall].
  apply IH2; [done |]. by apply step_speakingImpliesAudible.
Qed.

(** C7, as the code has it.  In every state the component can reach, a
    non-empty set of sources implies that the speaking indicator is on; the
    converse holds in every state reached through events whose audio chunks
    all decoded.  (The indicator is set before the decode is awaited.) *)
Theorem C7_speaking_indicator (evs : list Event) :
  let st := run decodeAudioData evs initialApp in
  (sourcesRef st ≠ [] → isSpeaking st = true) ∧
  (Forall (eventDecodes decodeAudioData) evs → (isSpeaking st = true ↔ sourcesRef st ≠ [])).
Proof.
  intros st. subst st.
  destruct (run_speaking evs initialApp) as [H1 H2].
  { by unfold audibleImpliesSpeaking. }
  split; [exact H1 |]. intros Hall. split; [| exact H1].
  apply H2; [done |]. by unfold speakingImpliesAudible.
Qed.

End Speaking.

(** ** Leaving the active phase *)

(** C8, as the code has it.  After the user's stop and after an inbound
    error the session is not active, the channel has been closed and its
    reference dropped, every source of the set has been stopped, the set is
    empty and the speaking indicator is off; an inbound error also sets the
    error message.  Neither transition touches the microphone stream. *)
Theorem C8_stop_and_error_release (st : App) :
  released st (stopSession st) ∧
  released st (onerror st) ∧
  error (onerror st) =
    Some "Communication lost. Please try restarting the session.".
Proof.
  unfold released, onerror, stopSession. simpl.
  destruct (sessionRef st) eqn:Hs; simpl; rewrite <- ?app_assoc;
    repeat split; done.
Qed.

(** ** The feedback list *)

Module FeedbackListProperties.
Import FeedbackListComponent.

Lemma insertSorted_perm {A} (cmp : A → A → Z) x l :
  insertSorted cmp x l ≡ₚ x :: l.
Proof.
  induction l as [| y l IH]; [done |]. simpl.
  destruct (cmp x y <=? 0); [done |].
  rewrite IH. apply Permutation_swap.
Qed.

Lemma sortArray_perm {A} (cmp : A → A → Z) l : sortArray cmp l ≡ₚ l.
Proof.
  induction l as [| x l IH]; [done |]. simpl.
  by rewrite insertSorted_perm, IH.
Qed.

Lemma insertSorted_hd x y l :
  newestFirst y x → HdRel newestFirst y l →
  HdRel newestFirst y (insertSorted compareFn x l).
Proof.
  intros Hyx Hhd. destruct l as [| z l]; simpl; [by constructor |].
  destruct (compareFn x z <=? 0); constructor; [done |].
  by inversion Hhd.
Qed.

Lemma insertSorted_sorted x l :
  Sorted newestFirst l → Sorted newestFirst (insertSorted compareFn x l).
Proof.
  induction 1 as [| y l Hl IH Hhd]; simpl; [by repeat constructor |].
  destruct (compareFn x y <=? 0) eqn:Hcmp.
  - constructor; [by constructor |]. constructor.
    unfold newestFirst, compareFn in *. lia.
  - constructor; [done |]. apply insertSorted_hd; [| done].
    unfold newestFirst, compareFn in *. lia.
Qed.

Lemma sortArray_sorted l : Sorted newestFirst (sortArray compareFn l).
Proof.
  induction l as [| x l IH]; simpl; [constructor |].
  by apply insertSorted_sorted.
Qed.

(** Stability: cards of one timestamp keep the order they had. *)
Lemma insertSorted_stable t x l :
  filter (λ f, fb_timestamp f = t) (insertSorted compareFn x l) =
  filter (λ f, fb_timestamp f = t) (x :: l).
Proof.
  induction l as [| y l IH]; [done |]. simpl.
  destruct (compareFn x y <=? 0) eqn:Hcmp; [done |].
  rewrite filter_cons, IH, !filter_cons.
  unfold compareFn in Hcmp.
  repeat case_decide; try done; lia.
Qed.

Lemma sortArray_stable t l :
  filter (λ f, fb_timestamp f = t) (sortArray compareFn l) =
  filter (λ f, fb_timestamp f = t) l.
Proof.
  induction l as [| x l IH]; [done |]. simpl.
  by rewrite insertSorted_stable, !filter_cons, IH.
Qed.

Lemma newestFirst_head a l x :
  Sorted newestFirst (a :: l) → x ∈ a :: l → fb_timestamp x ≤ fb_timestamp a.
Proof.
  intros Hs Hx. apply Sorted_StronglySorted in Hs.
  - apply StronglySorted_inv in Hs as [_ Hall].
    apply elem_of_cons in Hx as [-> | Hx]; [lia |].
    rewrite Forall_forall in Hall. by apply Hall.
  - intros u v w. unfold newestFirst. lia.
Qed.

(** The order of the cards does not depend on how the engine sorts: a
    stable arrangement by non-increasing timestamp is unique. *)
Lemma stable_sorted_unique (l1 l2 : list FeedbackMessage) :
  Sorted newestFirst l1 → Sorted newestFirst l2 →
  (∀ t, filter (λ f, fb_timestamp f = t) l1 =
        filter (λ f, fb_timestamp f = t) l2) →
  l1 = l2.
Proof.
  revert l2. induction l1 as [| a l1 IH]; intros l2 H1 H2 Hf.
  - destruct l2 as [| b l2]; [done |].
    specialize (Hf (fb_timestamp b)).
    by rewrite filter_cons_True in Hf by done.
  - destruct l2 as [| b l2].
    { specialize (Hf (fb_timestamp a)).
      by rewrite filter_cons_True in Hf by done. }
    assert (Hab : fb_timestamp a = fb_timestamp b).
    { assert (fb_timestamp a ≤ fb_timestamp b).
      { apply (newestFirst_head b l2 a H2).
        eapply (list_elem_of_filter (λ f, fb_timestamp f = fb_timestamp a)).
        rewrite <- Hf, filter_cons_True by done. apply list_elem_of_here. }
      assert (fb_timestamp b ≤ fb_timestamp a).
      { apply (newestFirst_head a l1 b H1).
        eapply (list_elem_of_filter (λ f, fb_timestamp f = fb_timestamp b)).
        rewrite Hf, filter_cons_True by done. apply list_elem_of_here. }
      lia. }
    pose proof (Hf (fb_timestamp a)) as Hhd.
    rewrite !filter_cons_True in Hhd by done.
    injection Hhd as <- _. f_equal.
    apply IH; [by apply Sorted_inv in H1 as [? _]
             | by apply Sorted_inv in H2 as [? _] |].
    intros t. specialize (Hf t). rewrite !filter_cons in Hf.
    case_decide; [by injection Hf | done].
Qed.

Lemma sortArray_unique (l cards : list FeedbackMessage) :
  Sorted newestFirst cards →
  (∀ t, filter (λ f, fb_timestamp f = t) cards =
        filter (λ f, fb_timestamp f = t) l) →
  cards = sortArray compareFn l.
Proof.
  intros Hs Hf. apply stable_sorted_unique; [done | apply sortArray_sorted |].
  intros t. by rewrite sortArray_stable.
Qed.

(** C10, as the code has it.  For every array of feedback events given to
    the renderer, the cards are the events of the array ordered by
    non-increasing timestamp (newest first), events of equal timestamp
    keeping the order they have in the array; the array itself, and every
    other array of the store, is left as it was: the sort works on a
    copy. *)
Theorem C10_rendered_newest_first (σ : Store) (feedbacks : nat)
    (fbs : list FeedbackMessage) :
  σ !! feedbacks = Some fbs →
  ∃ cards σ', FeedbackList feedbacks σ = Some (cards, σ') ∧
    cards = sortArray compareFn fbs ∧
    cards ≡ₚ fbs ∧
    Sorted newestFirst cards ∧
    (∀ t, filter (λ f, fb_timestamp f = t) cards =
          filter (λ f, fb_timestamp f = t) fbs) ∧
    σ' !! feedbacks = Some fbs ∧
    (∀ r, r ∈ dom σ → σ' !! r = σ !! r).
Proof.
  intros Hfbs.
  pose proof (is_fresh (dom σ)) as Hfresh.
  unfold FeedbackList, sortedFeedbacks, spread, sortInPlace. rewrite Hfbs.
  set (r' := fresh (dom σ)) in *.
  assert (Hold : ∀ r, r ∈ dom σ →
            alter (sortArray compareFn) r' (<[r':=fbs]> σ) !! r = σ !! r).
  { intros r Hr. assert (r' ≠ r) by (intros ->; done).
    by rewrite lookup_alter_ne, lookup_insert_ne. }
  rewrite lookup_alter_eq, lookup_insert_eq. simpl.
  eexists _, _. split; [reflexivity |]. split; [done |].
  split; [apply sortArray_perm |]. split; [apply sortArray_sorted |].
  split; [intros t; apply sortArray_stable |].
  split; [| exact Hold].
  rewrite Hold; [done |]. apply elem_of_dom. by eexists.
Qed.

End FeedbackListProperties.

(** ** Playback, in every reachable state *)

Lemma duration_nonneg (b : AudioBuffer) : (0 ≤ duration b)%Qc.
Proof.
  unfold duration, Qcle. simpl. rewrite !Qred_correct.
  unfold Qle. simpl. lia.
Qed.

Lemma windowEnd_ge_when (s : AudioBufferSourceNode) : (when s ≤ windowEnd s)%Qc.
Proof.
  unfold windowEnd. rewrite <- (Qcplus_0_r (when s)) at 1.
  apply Qcplus_le_compat; [apply Qcle_refl | apply duration_nonneg].
Qed.

Lemma Forall_filter_keep {A} (P Q : A → Prop) `{∀ x, Decision (Q x)} l :
  Forall P l → Forall P (filter Q l).
Proof.
  rewrite !Forall_forall. intros Hall x Hx.
  apply list_elem_of_filter in Hx as [_ Hx]. by apply Hall.
Qed.

Lemma StronglySorted_filter_keep {A} (R : relation A) (Q : A → Prop)
    `{∀ x, Decision (Q x)} l :
  StronglySorted R l → StronglySorted R (filter Q l).
Proof.
  induction 1 as [| x l Hl IH Hx]; [constructor |].
  rewrite filter_cons. case_decide; [| done].
  constructor; [done |]. by apply Forall_filter_keep.
Qed.

Lemma startedNodes_app es1 es2 :
  startedNodes (es1 ++ es2) = startedNodes es1 ++ startedNodes es2.
Proof. apply omap_app. Qed.

Lemma stoppedNodes_app es1 es2 :
  stoppedNodes (es1 ++ es2) = stoppedNodes es1 ++ stoppedNodes es2.
Proof. apply omap_app. Qed.

Lemma startedNodes_stops (l : list AudioBufferSourceNode) :
  startedNodes (map (λ s, SourceStop (node_id s)) l) = [].
Proof. induction l as [| s l IH]; [done |]. by simpl. Qed.

Lemma stoppedNodes_stops (l : list AudioBufferSourceNode) :
  stoppedNodes (map (λ s, SourceStop (node_id s)) l) = map node_id l.
Proof. induction l as [| s l IH]; [done |]. simpl. by rewrite IH. Qed.

Lemma startedNodes_responses (rs : list FunctionResponse) :
  startedNodes (map SendToolResponse rs) = [].
Proof. induction rs as [| r rs IH]; [done |]. by simpl. Qed.

Lemma stoppedNodes_responses (rs : list FunctionResponse) :
  stoppedNodes (map SendToolResponse rs) = [].
Proof. induction rs as [| r rs IH]; [done |]. by simpl. Qed.

(** The invariant looks at four components of the state only. *)
Lemma wellScheduled_ext st st' :
  sourcesRef st' = sourcesRef st →
  nextStartTimeRef st' = nextStartTimeRef st →
  nodesCreated st' = nodesCreated st →
  effects st' = effects st →
  wellScheduled st → wellScheduled st'.
Proof.
  unfold wellScheduled. intros -> -> -> ->. done.
Qed.

(** Emptying the set, whatever becomes of [nextStartTimeRef], provided
    the sources of the set are the ones stopped. *)
Lemma wellScheduled_cleared st st' es :
  sourcesRef st' = [] →
  (0 ≤ nextStartTimeRef st')%Qc →
  nodesCreated st' = nodesCreated st →
  effects st' = effects st ++ es →
  startedNodes es = [] →
  Forall (λ n, (n < nodesCreated st)%nat) (stoppedNodes es) →
  wellScheduled st → wellScheduled st'.
Proof.
  unfold wellScheduled.
  intros -> Hnext -> -> Hstart Hstop (_ & _ & _ & _ & _ & Hlog & Hstopped & _).
  split; [constructor |]. split; [constructor |]. split; [constructor |].
  split; [constructor |]. split; [done |].
  split; [by rewrite startedNodes_app, Hstart, app_nil_r |].
  split; [| constructor].
  rewrite stoppedNodes_app. by apply Forall_app.
Qed.

Lemma wellScheduled_initial : wellScheduled initialApp.
Proof.
  unfold wellScheduled, nonOverlapping. simpl.
  split; [constructor |]. split; [constructor |]. split; [constructor |].
  split; [constructor |]. split; [apply Qcle_refl |].
  split; [done |]. split; constructor.
Qed.

Lemma wellScheduled_stopSession st :
  wellScheduled st → wellScheduled (stopSession st).
Proof.
  intros Hinv.
  apply (wellScheduled_cleared st _
           (match sessionRef st with Some s => [SessionClose s] | None => [] end
            ++ map (λ h, SourceStop (node_id h)) (sourcesRef st)));
    try done; unfold stopSession; destruct (sessionRef st); simpl;
    rewrite <- ?app_assoc; try done.
  - by destruct Hinv as (_ & _ & _ & _ & ? & _).
  - by destruct Hinv as (_ & _ & _ & _ & ? & _).
  - apply startedNodes_stops.
  - apply startedNodes_stops.
  - rewrite stoppedNodes_stops, Forall_fmap.
    by destruct Hinv as (? & _).
  - rewrite stoppedNodes_stops, Forall_fmap.
    by destruct Hinv as (? & _).
Qed.

Lemma wellScheduled_interrupt st :
  wellScheduled st → wellScheduled (interrupt st).
Proof.
  intros Hinv.
  apply (wellScheduled_cleared st _
           (map (λ h, SourceStop (node_id h)) (sourcesRef st))); try done.
  - apply startedNodes_stops.
  - rewrite stoppedNodes_stops, Forall_fmap.
    by destruct Hinv as (? & _).
Qed.

Lemma wellScheduled_onended n st :
  wellScheduled st → wellScheduled (onended n st).
Proof.
  unfold wellScheduled, onended.
  intros (Hids & Hnd & Hno & Hend & Hnext & Hlog & Hstop & Hstarted).
  assert (Hgoal :
    Forall (λ s, (node_id s < nodesCreated st)%nat)
      (deleteSource n (sourcesRef st)) ∧
    NoDup (map node_id (deleteSource n (sourcesRef st))) ∧
    nonOverlapping (deleteSource n (sourcesRef st)) ∧
    Forall (λ s, (windowEnd s ≤ nextStartTimeRef st)%Qc)
      (deleteSource n (sourcesRef st)) ∧
    Forall (λ s, SourceStart (node_id s) (when s) ∈ effects st)
      (deleteSource n (sourcesRef st))).
  { unfold deleteSource, nonOverlapping.
    split; [by apply Forall_filter_keep |].
    split; [| split; [by apply StronglySorted_filter_keep |
                      split; by apply Forall_filter_keep]].
    eapply sublist_NoDup;
      [exact Hnd | apply (fmap_sublist node_id), sublist_filter]. }
  destruct Hgoal as (? & ? & ? & ? & ?).
  simpl. by case_bool_decide.
Qed.

Section PlaybackInvariant.

Variable decodeAudioData : string → option AudioBuffer.

(** The three outcomes of the audio block, in full. *)
Lemma handleAudioOutput_cases env msg st :
  let r := handleAudioOutput decodeAudioData env msg st in
  r = (Normal, st) ∨
  (∃ b,
     let h := {| node_id := nodesCreated st; buffer := b;
                 when := Qcmax (nextStartTimeRef st) (currentTime env) |} in
     r.1 = Normal ∧
     sourcesRef r.2 = sourcesRef st ++ [h] ∧
     nextStartTimeRef r.2 = windowEnd h ∧
     nodesCreated r.2 = S (nodesCreated st) ∧
     effects r.2 = effects st ++ [SourceStart (node_id h) (when h)]) ∨
  (r.1 = Throw ∧
   sourcesRef r.2 = sourcesRef st ∧
   nextStartTimeRef r.2 = Qcmax (nextStartTimeRef st) (currentTime env) ∧
   nodesCreated r.2 = nodesCreated st ∧
   effects r.2 = effects st).
Proof.
  unfold handleAudioOutput.
  destruct (audioData msg) as [data|];
    [destruct (truthy data); [destruct (decodeAudioData data) as [b|] |] |];
    simpl; [right; left | right; right | left | left]; try done.
  by exists b.
Qed.

Lemma settle_nodesCreated env msg st :
  nodesCreated (settle env msg st) = nodesCreated st.
Proof.
  unfold settle.
  destruct (toolCall msg); [rewrite dispatchAll_eq |];
    destruct (interrupted msg), (inputTranscription msg),
      (outputTranscription msg), (turnComplete msg); simpl;
    unfold flushTurn; try (destruct (_ || _)); reflexivity.
Qed.

(** Appending calls that neither start nor stop a source. *)
Lemma wellScheduled_logged st st' es :
  sourcesRef st' = sourcesRef st →
  nextStartTimeRef st' = nextStartTimeRef st →
  nodesCreated st' = nodesCreated st →
  effects st' = effects st ++ es →
  startedNodes es = [] → stoppedNodes es = [] →
  wellScheduled st → wellScheduled st'.
Proof.
  unfold wellScheduled. intros -> -> -> -> Hstart Hstop.
  intros (Hids & Hnd & Hno & Hend & Hnext & Hlog & Hstopped & Hstarted).
  rewrite startedNodes_app, stoppedNodes_app, Hstart, Hstop, !app_nil_r.
  repeat split; try done.
  eapply Forall_impl; [exact Hstarted |].
  intros s Hs. apply elem_of_app. by left.
Qed.

Lemma wellScheduled_raised st st' (t : Qc) :
  sourcesRef st' = sourcesRef st →
  nextStartTimeRef st' = Qcmax (nextStartTimeRef st) t →
  nodesCreated st' = nodesCreated st →
  effects st' = effects st →
  wellScheduled st → wellScheduled st'.
Proof.
  unfold wellScheduled. intros -> -> -> ->.
  intros (Hids & Hnd & Hno & Hend & Hnext & Hlog & Hstopped & Hstarted).
  repeat split; try done.
  - eapply Forall_impl; [exact Hend |].
    intros s Hs. eapply Qcle_trans; [exact Hs | apply Qcmax_ge_l].
  - eapply Qcle_trans; [exact Hnext | apply Qcmax_ge_l].
Qed.

Lemma wellScheduled_enqueued st st' (h : AudioBufferSourceNode) :
  node_id h = nodesCreated st →
  (nextStartTimeRef st ≤ when h)%Qc →
  sourcesRef st' = sourcesRef st ++ [h] →
  nextStartTimeRef st' = windowEnd h →
  nodesCreated st' = S (nodesCreated st) →
  effects st' = effects st ++ [SourceStart (node_id h) (when h)] →
  wellScheduled st → wellScheduled st'.
Proof.
  unfold wellScheduled. intros Hid Hwhen -> -> -> ->.
  intros (Hids & Hnd & Hno & Hend & Hnext & Hlog & Hstopped & Hstarted).
  split.
  { apply Forall_app. split.
    - eapply Forall_impl; [exact Hids |]. simpl. lia.
    - apply Forall_singleton. rewrite Hid. lia. }
  split.
  { rewrite map_app. apply NoDup_app. split; [done |]. split.
    - intros n Hn Hn'. apply list_elem_of_singleton in Hn'. simpl in Hn'.
      apply list_elem_of_fmap in Hn as (s & -> & Hs).
      rewrite Forall_forall in Hids. specialize (Hids s Hs). lia.
    - apply NoDup_singleton. }
  split.
  { apply StronglySorted_app_2; [| done | repeat constructor].
    intros s h' Hs Hh'. apply list_elem_of_singleton in Hh' as ->.
    rewrite Forall_forall in Hend.
    eapply Qcle_trans; [apply (Hend s Hs) | exact Hwhen]. }
  split.
  { apply Forall_app. split.
    - eapply Forall_impl; [exact Hend |]. intros s Hs.
      eapply Qcle_trans; [exact Hs |].
      eapply Qcle_trans; [exact Hwhen | apply windowEnd_ge_when].
    - apply Forall_singleton, Qcle_refl. }
  split.
  { eapply Qcle_trans; [exact Hnext |].
    eapply Qcle_trans; [exact Hwhen | apply windowEnd_ge_when]. }
  split.
  { rewrite startedNodes_app, Hlog, Hid, seq_S. reflexivity. }
  split.
  { rewrite stoppedNodes_app. simpl. rewrite app_nil_r.
    eapply Forall_impl; [exact Hstopped |]. simpl. lia. }
  apply Forall_app. split.
  - eapply Forall_impl; [exact Hstarted |].
    intros s Hs. apply elem_of_app. by left.
  - apply Forall_singleton, elem_of_app. right. apply list_elem_of_here.
Qed.

Lemma wellScheduled_audio env msg st :
  wellScheduled st →
  wellScheduled (handleAudioOutput decodeAudioData env msg st).2.
Proof.
  intros Hinv.
  destruct (handleAudioOutput_cases env msg st)
    as [Hr | [(b & Hn & Hs & Hnext & Hnodes & Heff)
            | (Hn & Hs & Hnext & Hnodes & Heff)]].
  - by rewrite Hr.
  - apply (wellScheduled_enqueued st _
             {| node_id := nodesCreated st; buffer := b;
                when := Qcmax (nextStartTimeRef st) (currentTime env) |});
      try done.
    simpl. apply Qcmax_ge_l.
  - by eapply wellScheduled_raised.
Qed.

Lemma wellScheduled_settle env msg st :
  wellScheduled st → wellScheduled (settle env msg st).
Proof.
  intros Hinv.
  pose proof (settle_sources env msg st) as Hs.
  pose proof (settle_nextStartTime env msg st) as Hnext.
  pose proof (settle_effects env msg st) as Heff.
  pose proof (settle_nodesCreated env msg st) as Hnodes.
  destruct (interrupted msg).
  - eapply wellScheduled_cleared; try done.
    + rewrite Hnext. apply Qcle_refl.
    + rewrite startedNodes_app, startedNodes_stops.
      destruct (toolCall msg); [apply startedNodes_responses | done].
    + rewrite stoppedNodes_app, stoppedNodes_stops. apply Forall_app. split.
      * rewrite Forall_fmap. by destruct Hinv as (? & _).
      * destruct (toolCall msg); [| constructor].
        rewrite stoppedNodes_responses. constructor.
  - eapply wellScheduled_logged; try done; simpl.
    + destruct (toolCall msg); [apply startedNodes_responses | done].
    + destruct (toolCall msg); [apply stoppedNodes_responses | done].
Qed.

Lemma wellScheduled_step st ev :
  wellScheduled st → wellScheduled (step decodeAudioData st ev).
Proof.
  intros Hinv.
  destruct ev as [granted| s | | env msg | n | | | |]; simpl.
  - eapply wellScheduled_ext; [.. | exact Hinv]; by destruct granted.
  - by eapply wellScheduled_ext.
  - by eapply wellScheduled_ext.
  - rewrite onmessage_settle.
    pose proof (wellScheduled_audio env msg st Hinv) as Haudio.
    destruct (handleAudioOutput decodeAudioData env msg st) as [[|] st1];
      simpl in *; [by apply wellScheduled_settle | done].
  - by apply wellScheduled_onended.
  - unfold onerror. apply wellScheduled_stopSession.
    by eapply wellScheduled_ext.
  - by eapply wellScheduled_ext.
  - by apply wellScheduled_stopSession.
  - by eapply wellScheduled_ext.
Qed.

Lemma wellScheduled_run evs st :
  wellScheduled st → wellScheduled (run decodeAudioData evs st).
Proof.
  revert st. induction evs as [| ev evs IH]; intros st Hinv; [done |].
  simpl. apply IH. by apply wellScheduled_step.
Qed.

End PlaybackInvariant.

(** ** Further properties of playback *)

Lemma perform_nil st : perform [] st = st.
Proof. destruct st. unfold perform. simpl. by rewrite app_nil_r. Qed.

Lemma setSources_same st : setSources (sourcesRef st) st = st.
Proof. by destruct st. Qed.

Lemma deleteSource_absent n (l : list AudioBufferSourceNode) :
  n ∉ map node_id l → deleteSource n l = l.
Proof.
  unfold deleteSource. induction l as [| s l IH]; intros Hn; [done |].
  rewrite filter_cons. simpl in Hn. apply not_elem_of_cons in Hn as [Hne Hn].
  rewrite decide_True by done. by rewrite IH.
Qed.

Lemma deleteSource_present (s : AudioBufferSourceNode) l :
  NoDup (map node_id l) → s ∈ l →
  S (length (deleteSource (node_id s) l)) = length l ∧
  (s ∉ deleteSource (node_id s) l) ∧
  (∀ s', s' ∈ l → s' ≠ s → s' ∈ deleteSource (node_id s) l).
Proof.
  unfold deleteSource. intros Hnd Hs. split; [| split].
  - induction l as [| x l IH]; [by apply elem_of_nil in Hs |].
    simpl in Hnd. apply NoDup_cons in Hnd as [Hx Hnd].
    rewrite filter_cons. apply elem_of_cons in Hs as [<- | Hs].
    + rewrite decide_False by (intros H; by apply H).
      fold (deleteSource (node_id s) l).
      rewrite deleteSource_absent by done. simpl. lia.
    + rewrite decide_True.
      * simpl. specialize (IH Hnd Hs). lia.
      * intros Heq. apply Hx. rewrite Heq.
        by apply (list_elem_of_fmap_2 node_id).
  - intros Hin. apply list_elem_of_filter in Hin as [Hne _]. by apply Hne.
  - intros s' Hs' Hne. apply list_elem_of_filter. split; [| done].
    intros Heq. apply Hne.
    apply (NoDup_fmap_1 node_id) in Hnd as Hnd'.
    destruct (list_elem_of_lookup_1 _ _ Hs') as [i Hi].
    destruct (list_elem_of_lookup_1 _ _ Hs) as [j Hj].
    assert (i = j) as ->.
    { eapply NoDup_lookup; [exact Hnd | |];
        rewrite list_lookup_fmap; [by rewrite Hi | rewrite Hj; simpl; by rewrite Heq]. }
    congruence.
Qed.

Lemma stopSession_rest st :
  sessionRef (stopSession st) = None ∧ sourcesRef (stopSession st) = [] ∧
  isActive (stopSession st) = false ∧ isSpeaking (stopSession st) = false.
Proof.
  unfold stopSession. destruct (sessionRef st) eqn:Hs; repeat split; done.
Qed.

Lemma stopSession_at_rest st :
  sessionRef st = None → sourcesRef st = [] →
  isActive st = false → isSpeaking st = false →
  stopSession st = st.
Proof.
  destruct st. simpl. intros -> -> -> ->.
  unfold stopSession, stopAll, perform. simpl. by rewrite app_nil_r.
Qed.

Section Playback.

Variable decodeAudioData : string → option AudioBuffer.

(** X1.  Stopping a session that is already stopped changes nothing: the
    session is not closed again and no source is stopped again.  The same
    holds for a stop that follows an inbound error, and an inbound error
    that follows a stop only sets the error message. *)
Theorem X1_stopSession_idempotent (st : App) :
  stopSession (stopSession st) = stopSession st ∧
  stopSession (onerror st) = onerror st ∧
  onerror (stopSession st) =
    setError (Some "Communication lost. Please try restarting the session.")
      (stopSession st).
Proof.
  pose proof (stopSession_rest st) as (Hs & Hsrc & Ha & Hsp).
  pose proof (stopSession_rest
                (setError
                   (Some "Communication lost. Please try restarting the session.")
                   st)) as (Hs' & Hsrc' & Ha' & Hsp').
  split; [by apply stopSession_at_rest |].
  split; [unfold onerror; by apply stopSession_at_rest |].
  unfold onerror. by apply stopSession_at_rest.
Qed.

(** X2.  In every state the component can reach, the sources of the set
    have pairwise different identities, each created before. *)
Theorem X2_source_identities_unique (evs : list Event) :
  let st := run decodeAudioData evs initialApp in
  NoDup (map node_id (sourcesRef st)) ∧
  Forall (λ s, (node_id s < nodesCreated st)%nat) (sourcesRef st).
Proof.
  intros st. subst st.
  destruct (wellScheduled_run decodeAudioData evs initialApp
              wellScheduled_initial) as (Hids & Hnd & _).
  by split.
Qed.

(** X3.  When a source of the set ends, exactly that source leaves the
    set: the set is one smaller, the ended source is gone, every other one
    stays; scheduling is untouched; and the speaking indicator goes off
    exactly when the set has become empty. *)
Theorem X3_onended_removes_that_source (evs : list Event)
    (s : AudioBufferSourceNode) :
  let st := run decodeAudioData evs initialApp in
  let st' := onended (node_id s) st in
  s ∈ sourcesRef st →
  S (length (sourcesRef st')) = length (sourcesRef st) ∧
  (s ∉ sourcesRef st') ∧
  (∀ s', s' ∈ sourcesRef st → s' ≠ s → s' ∈ sourcesRef st') ∧
  nextStartTimeRef st' = nextStartTimeRef st ∧
  effects st' = effects st ∧
  (sourcesRef st' = [] → isSpeaking st' = false) ∧
  (sourcesRef st' ≠ [] → isSpeaking st' = isSpeaking st).
Proof.
  intros st st' Hs. subst st'.
  destruct (wellScheduled_run decodeAudioData evs initialApp
              wellScheduled_initial) as (_ & Hnd & _).
  fold st in Hnd.
  destruct (deleteSource_present s (sourcesRef st) Hnd Hs)
    as (Hlen & Hgone & Hkept).
  unfold onended. simpl.
  case_bool_decide as Hempty; simpl; repeat split; try done.
  - intros Hne. by apply nil_length_inv in Hempty.
  - intros Hnil. rewrite Hnil in Hempty. by simpl in Hempty.
Qed.

(** X4.  In every state the component can reach, whatever the events
    (late chunks, failed decodes, interruptions, stops and restarts), the
    play windows of the sources in the set do not overlap: a source inserted
    earlier ends before a source inserted later starts; and every window
    ends by [nextStartTimeRef], which is never negative. *)
Theorem X4_windows_never_overlap (evs : list Event) :
  let st := run decodeAudioData evs initialApp in
  (∀ l1 a l2 b l3, sourcesRef st = l1 ++ a :: l2 ++ b :: l3 →
     (when a + duration (buffer a) ≤ when b)%Qc) ∧
  (∀ s, s ∈ sourcesRef st →
     (when s + duration (buffer s) ≤ nextStartTimeRef st)%Qc) ∧
  (0 ≤ nextStartTimeRef st)%Qc.
Proof.
  intros st. subst st.
  destruct (wellScheduled_run decodeAudioData evs initialApp
              wellScheduled_initial) as (_ & _ & Hno & Hend & Hnext & _).
  split; [| split; [| done]].
  - intros l1 a l2 b l3 Hsrc. rewrite Hsrc in Hno. unfold nonOverlapping in Hno.
    apply StronglySorted_app_1_r, StronglySorted_cons in Hno as [Hall _].
    rewrite Forall_forall in Hall. apply Hall.
    apply elem_of_app. right. apply list_elem_of_here.
  - intros s Hs. rewrite Forall_forall in Hend. by apply Hend.
Qed.

Lemma step_nextStartTime_mono st ev :
  ¬ isInterruption ev →
  (nextStartTimeRef st ≤ nextStartTimeRef (step decodeAudioData st ev))%Qc.
Proof.
  intros Hni.
  destruct ev as [granted| s | | env msg | n | | | |]; simpl;
    try apply Qcle_refl.
  - destruct granted; apply Qcle_refl.
  - simpl in Hni. rewrite onmessage_settle.
    destruct (handleAudioOutput_cases decodeAudioData env msg st)
      as [Hr | [(b & Hn & Hs & Hnext & _) | (Hn & Hs & Hnext & _)]].
    + rewrite Hr. simpl. rewrite settle_nextStartTime.
      destruct (interrupted msg); [done | apply Qcle_refl].
    + destruct (handleAudioOutput decodeAudioData env msg st) as [c st1].
      simpl in *. subst c. simpl. rewrite settle_nextStartTime.
      destruct (interrupted msg); [done |]. rewrite Hnext.
      eapply Qcle_trans; [| apply windowEnd_ge_when]. apply Qcmax_ge_l.
    + destruct (handleAudioOutput decodeAudioData env msg st) as [c st1].
      simpl in *. subst c. simpl. rewrite Hnext. apply Qcmax_ge_l.
  - unfold onended. simpl. case_bool_decide; apply Qcle_refl.
  - unfold onerror, stopSession. simpl.
    destruct (sessionRef st); apply Qcle_refl.
  - unfold stopSession. destruct (sessionRef st); apply Qcle_refl.
Qed.

(** X5.  Only an interruption moves [nextStartTimeRef] back: over any
    events none of which is a message flagged [interrupted] (stops and
    restarts included) it never decreases. *)
Theorem X5_nextStartTime_monotone (evs : list Event) (st : App) :
  Forall (λ ev, ¬ isInterruption ev) evs →
  (nextStartTimeRef st ≤ nextStartTimeRef (run decodeAudioData evs st))%Qc.
Proof.
  intros Hall. revert st.
  induction Hall as [| ev evs Hev Hall IH]; intros st; [apply Qcle_refl |].
  simpl. eapply Qcle_trans; [| apply IH].
  by apply step_nextStartTime_mono.
Qed.

(** X6.  In every state the component can reach, the nodes started so far
    are exactly the nodes created, each started once and in the order of
    creation; only nodes that were started are ever stopped; and every
    source of the set has been started at its [when]. *)
Theorem X6_started_once_stopped_only_if_started (evs : list Event) :
  let st := run decodeAudioData evs initialApp in
  startedNodes (effects st) = seq 0 (nodesCreated st) ∧
  NoDup (startedNodes (effects st)) ∧
  (∀ n, n ∈ stoppedNodes (effects st) → n ∈ startedNodes (effects st)) ∧
  (∀ s, s ∈ sourcesRef st → SourceStart (node_id s) (when s) ∈ effects st).
Proof.
  intros st. subst st.
  destruct (wellScheduled_run decodeAudioData evs initialApp
              wellScheduled_initial)
    as (_ & _ & _ & _ & _ & Hlog & Hstopped & Hstarted).
  split; [done |]. split; [rewrite Hlog; apply NoDup_seq |]. split.
  - intros n Hn. rewrite Hlog. apply elem_of_seq.
    rewrite Forall_forall in Hstopped. specialize (Hstopped n Hn). lia.
  - intros s Hs. rewrite Forall_forall in Hstarted. by apply Hstarted.
Qed.

(** X7.  A late [onended] is harmless: for a source stopped by an
    interruption or by a stop it changes nothing, and so it does for any
    source that is not in a non-empty set. *)
Theorem X7_late_onended_harmless (n : nat) (st : App) :
  onended n (interrupt st) = interrupt st ∧
  onended n (stopSession st) = stopSession st ∧
  (n ∉ map node_id (sourcesRef st) → sourcesRef st ≠ [] →
   onended n st = st).
Proof.
  split; [| split].
  - unfold onended, interrupt. simpl. by destruct st.
  - unfold onended, stopSession.
    destruct (sessionRef st); simpl; by destruct st.
  - intros Hn Hne. unfold onended.
    rewrite deleteSource_absent by done. rewrite setSources_same.
    case_bool_decide as Hlen; [| done].
    by apply nil_length_inv in Hlen.
Qed.

End Playback.

(** ** History, phase and what the page shows *)

Section History.

Variable decodeAudioData : string → option AudioBuffer.

(** The audio block touches playback and the speaking indicator only. *)
Lemma handleAudioOutput_rest env msg st :
  let st' := (handleAudioOutput decodeAudioData env msg st).2 in
  isActive st' = isActive st ∧ error st' = error st ∧
  sessionRef st' = sessionRef st ∧ micStream st' = micStream st ∧
  transcriptions st' = transcriptions st ∧ feedbacks st' = feedbacks st ∧
  transcriptionBufferRef st' = transcriptionBufferRef st.
Proof.
  unfold handleAudioOutput.
  destruct (audioData msg) as [data|];
    [destruct (truthy data); [destruct (decodeAudioData data) |] |]; by simpl.
Qed.

Lemma settle_phase env msg st :
  isActive (settle env msg st) = isActive st ∧
  error (settle env msg st) = error st ∧
  sessionRef (settle env msg st) = sessionRef st ∧
  micStream (settle env msg st) = micStream st.
Proof.
  unfold settle.
  destruct (toolCall msg); [rewrite dispatchAll_eq |];
    destruct (interrupted msg), (inputTranscription msg),
      (outputTranscription msg), (turnComplete msg); simpl;
    unfold flushTurn; try (destruct (_ || _)); by simpl.
Qed.


Lemma onmessage_phase env msg st :
  let st' := (onmessage decodeAudioData env msg st).2 in
  isActive st' = isActive st ∧ error st' = error st ∧
  sessionRef st' = sessionRef st ∧ micStream st' = micStream st.
Proof.
  simpl. rewrite onmessage_settle.
  destruct (handleAudioOutput_rest env msg st) as (Ha & He & Hs & Hm & _).
  destruct (handleAudioOutput decodeAudioData env msg st) as [[|] st1];
    simpl in *; [| done].
  destruct (settle_phase env msg st1) as (-> & -> & -> & ->). done.
Qed.



Lemma step_quiet st ev :
  ¬ isMessage ev →
  let st' := step decodeAudioData st ev in
  transcriptionBufferRef st' = transcriptionBufferRef st ∧
  transcriptions st' = transcriptions st ∧
  feedbacks st' = feedbacks st ∧
  nextStartTimeRef st' = nextStartTimeRef st.
Proof.
  intros Hq.
  destruct ev as [granted| s | | env msg | n | | | |]; simpl; try done.
  - by destruct granted.
  - unfold onended. simpl. by case_bool_decide.
  - unfold onerror, stopSession. simpl. by destruct (sessionRef st).
  - unfold stopSession. by destruct (sessionRef st).
Qed.

(** X9.  Nothing but an inbound message touches the transcript, the
    feedback history, the fragments waiting in the transcription buffers or
    [nextStartTimeRef]: ending a session, an error, a close or starting the
    next session leaves all four as they were, so fragments that were not
    flushed are carried into the next session. *)
Theorem X9_session_end_keeps_history (evs : list Event) (st : App) :
  Forall (λ ev, ¬ isMessage ev) evs →
  let st' := run decodeAudioData evs st in
  transcriptionBufferRef st' = transcriptionBufferRef st ∧
  transcriptions st' = transcriptions st ∧
  feedbacks st' = feedbacks st ∧
  nextStartTimeRef st' = nextStartTimeRef st.
Proof.
  intros Hall. simpl. revert st.
  induction Hall as [| ev evs Hev Hall IH]; intros st; [done |].
  simpl. destruct (step_quiet st ev Hev) as (Hb & Ht & Hf & Hn).
  destruct (IH (step decodeAudioData st ev)) as (-> & -> & -> & ->).
  done.
Qed.

Lemma step_errorMeansInactive st ev :
  errorMeansInactive st → errorMeansInactive (step decodeAudioData st ev).
Proof.
  unfold errorMeansInactive. intros Hinv.
  destruct ev as [granted| s | | env msg | n | | | |]; simpl; try done.
  - destruct granted; simpl; [done |].
    intros e [= <-]. split; [done | by right].
  - intros e [= <-]. split; [done | by right].
  - destruct (onmessage_phase env msg st) as (-> & -> & _). done.
  - unfold onended. simpl. by case_bool_decide.
  - unfold onerror, stopSession. simpl.
    destruct (sessionRef st); simpl; intros e [= <-]; (split; [done | by left]).
  - intros e He. split; [done | by apply (Hinv e)].
  - unfold stopSession.
    destruct (sessionRef st); simpl; intros e He;
      (split; [done | by apply (Hinv e)]).
Qed.

(** X10.  In every state the component can reach, whenever the error
    overlay is shown the session is not active, so the header offers Start
    Interview and not End Session, and the overlay shows one of the two
    messages of the component. *)
Theorem X10_error_overlay_means_inactive (evs : list Event) (e : string) :
  let st := run decodeAudioData evs initialApp in
  errorOverlay (render st) = Some e →
  isActive st = false ∧
  headerButton (render st) = StartInterview ∧
  previewIsActive (render st) = false ∧
  knownError e.
Proof.
  simpl.
  assert (Hinv : errorMeansInactive (run decodeAudioData evs initialApp)).
  { assert (Hrun : ∀ st, errorMeansInactive st →
                     errorMeansInactive (run decodeAudioData evs st)).
    { induction evs as [| ev evs IH]; intros st Hst; [done |].
      simpl. apply IH. by apply step_errorMeansInactive. }
    apply Hrun. by intros e0. }
  destruct (error (run decodeAudioData evs initialApp)) as [e0|] eqn:He;
    [| done].
  destruct (truthy e0); [| done]. intros [= <-].
  destruct (Hinv e0 He) as [Hact Hknown]. by rewrite Hact.
Qed.


(** X12.  A video frame is forwarded exactly when the session is active
    and its connection has been opened.  After a stop or an inbound error no
    frame is forwarded, whichever render the callback stems from, until a
    new connection has been opened; after an inbound close the callback of
    the current render forwards none. *)
Theorem X12_frames_only_to_open_session (seen : bool) (frame : option string)
    (st : App) (evs : list Event) :
  (handleFrame (isActive st) frame st =
     [{| media_data := frame; media_mimeType := "image/jpeg" |}] ↔
   isActive st = true ∧ sessionRef st ≠ None) ∧
  (Forall (λ ev, ∀ s, ev ≠ SessionResolved s) evs →
   handleFrame seen frame (run decodeAudioData evs (stopSession st)) = [] ∧
   handleFrame seen frame (run decodeAudioData evs (onerror st)) = []) ∧
  handleFrame (isActive (onclose st)) frame (onclose st) = [].
Proof.
  split; [| split].
  - unfold handleFrame. destruct (isActive st);
      case_bool_decide; simpl; split; try done; intros [? ?]; done.
  - intros Hall.
    assert (Hnone : ∀ st0, sessionRef st0 = None →
              sessionRef (run decodeAudioData evs st0) = None).
    { induction Hall as [| ev evs Hev Hall IH]; intros st0 H0; [done |].
      simpl. apply IH.
      destruct ev as [granted| s | | env msg | n | | | |]; simpl; try done.
      - by destruct granted.
      - by destruct (Hev s).
      - by destruct (onmessage_phase env msg st0) as (_ & _ & -> & _).
      - unfold onended. simpl. by case_bool_decide.
      - unfold onerror, stopSession. simpl. by rewrite H0.
      - unfold stopSession. by rewrite H0. }
    unfold handleFrame. rewrite !Hnone.
    + by rewrite !bool_decide_eq_false_2 by (intros H; by apply H).
    + unfold onerror. apply stopSession_rest.
    + apply stopSession_rest.
  - unfold handleFrame, onclose. simpl. by rewrite andb_false_r.
Qed.

End History.

(** ** Messages that carry several things *)

Section Combined.

Variable decodeAudioData : string → option AudioBuffer.

(** X13.  A message that carries an audio chunk and the [interrupted] flag
    plays nothing: the chunk is decoded and started, and then stopped with
    every source that was in the set; the set is empty afterwards,
    [nextStartTimeRef] is 0 and the speaking indicator is off. *)
Theorem X13_chunk_with_interruption_is_stopped env msg st data b :
  audioData msg = Some data → truthy data = true →
  decodeAudioData data = Some b →
  interrupted msg = true →
  let st' := (onmessage decodeAudioData env msg st).2 in
  let n := nodesCreated st in
  let t := Qcmax (nextStartTimeRef st) (currentTime env) in
  sourcesRef st' = [] ∧
  nextStartTimeRef st' = 0%Qc ∧
  isSpeaking st' = false ∧
  startedNodes (effects st') = startedNodes (effects st) ++ [n] ∧
  stoppedNodes (effects st') =
    stoppedNodes (effects st) ++ map node_id (sourcesRef st) ++ [n] ∧
  ∃ rest, effects st' =
    effects st ++ [SourceStart n t] ++
    map (λ s, SourceStop (node_id s)) (sourcesRef st) ++ [SourceStop n] ++
    rest.
Proof.
  intros Hd Ht Hdec Hint. simpl.
  destruct (handleAudioOutput_decoded decodeAudioData env msg st data b
              Hd Ht Hdec) as (st1 & Hst1 & Hsrc & _ & _ & Heff).
  rewrite onmessage_settle, Hst1. simpl in *.
  rewrite settle_sources, settle_nextStartTime, settle_isSpeaking,
    settle_effects, Hint, Heff, Hsrc.
  split; [done |]. split; [done |]. split; [done |].
  rewrite !startedNodes_app, !stoppedNodes_app, startedNodes_stops,
    stoppedNodes_stops, map_app.
  assert (Hacks :
    startedNodes match toolCall msg with
                 | Some fcs => map SendToolResponse (acknowledged fcs)
                 | None => []
                 end = [] ∧
    stoppedNodes match toolCall msg with
                 | Some fcs => map SendToolResponse (acknowledged fcs)
                 | None => []
                 end = []).
  { destruct (toolCall msg);
      [by rewrite startedNodes_responses, stoppedNodes_responses | done]. }
  destruct Hacks as [-> ->]. simpl. rewrite !app_nil_r.
  split; [done |]. split; [done |].
  eexists. rewrite map_app. simpl. rewrite <- !app_assoc. simpl. reflexivity.
Qed.

(** X14.  A message that closes a turn closes it with its own fragments
    included: the fragments it carries are appended first, then the turn is
    flushed with the texts so obtained, and the buffers are empty
    afterwards. *)
Theorem X14_closing_message_fragments_included env msg st st' :
  turnComplete msg = true →
  onmessage decodeAudioData env msg st = (Normal, st') →
  let u := match inputTranscription msg with
           | Some t => concatJs (buf_user (transcriptionBufferRef st)) t
           | None => buf_user (transcriptionBufferRef st)
           end in
  let m := match outputTranscription msg with
           | Some t => concatJs (buf_model (transcriptionBufferRef st)) t
           | None => buf_model (transcriptionBufferRef st)
           end in
  transcriptions st' = transcriptions st ++ turnEntries u m (dateNow env) ∧
  transcriptionBufferRef st' = {| buf_user := ""; buf_model := "" |}.
Proof.
  intros Htc Hm. simpl. rewrite onmessage_settle in Hm.
  destruct (handleAudioOutput_rest decodeAudioData env msg st)
    as (_ & _ & _ & _ & Ht & _ & Hb).
  destruct (handleAudioOutput decodeAudioData env msg st) as [[|] st1];
    [| done].
  injection Hm as <-. simpl in Ht, Hb. rewrite <- Ht, <- Hb.
  unfold settle. rewrite Htc.
  destruct (toolCall msg); [rewrite dispatchAll_eq |];
    destruct (interrupted msg), (inputTranscription msg),
      (outputTranscription msg); simpl; unfold flushTurn; simpl;
    unfold turnEntries;
    destruct (truthy _), (truthy _); simpl; by rewrite ?app_nil_r.
Qed.

End Combined.

(** ** The feedback list, continued *)

Module FeedbackListFacts.
Import FeedbackListComponent FeedbackListProperties FeedbackListView.

Lemma FeedbackList_sorted (σ : Store) (feedbacks : nat) fbs :
  σ !! feedbacks = Some fbs →
  ∃ σ', FeedbackList feedbacks σ = Some (sortArray compareFn fbs, σ') ∧
        σ' !! feedbacks = Some fbs.
Proof.
  intros Hfbs.
  pose proof (is_fresh (dom σ)) as Hfresh.
  unfold FeedbackList, sortedFeedbacks, spread, sortInPlace. rewrite Hfbs.
  set (r' := fresh (dom σ)) in *.
  rewrite lookup_alter_eq, lookup_insert_eq. simpl.
  eexists. split; [reflexivity |].
  assert (r' ≠ feedbacks).
  { intros ->. apply Hfresh, elem_of_dom. by eexists. }
  by rewrite lookup_alter_ne, lookup_insert_ne.
Qed.

(** X15.  Sorting leaves a list that is already newest first exactly as it
    is, ties included, and sorting twice is the same as sorting once. *)
Theorem X15_sort_keeps_sorted_list (l : list FeedbackMessage) :
  (Sorted newestFirst l → sortArray compareFn l = l) ∧
  sortArray compareFn (sortArray compareFn l) = sortArray compareFn l.
Proof.
  assert (Hid : ∀ l0, Sorted newestFirst l0 → sortArray compareFn l0 = l0).
  { intros l0 Hs. symmetry. by apply sortArray_unique. }
  split; [apply Hid |]. apply Hid, sortArray_sorted.
Qed.

(** X16.  The renderer shows the placeholder exactly when the array is
    empty; otherwise it shows one card per event, keyed by the event's id,
    the cards ordered by non-increasing time; the array is left as it
    was. *)
Theorem X16_one_card_per_event (σ : Store) (feedbacks : nat) fbs :
  σ !! feedbacks = Some fbs →
  ∃ v σ', renderFeedbackList feedbacks σ = Some (v, σ') ∧
    σ' !! feedbacks = Some fbs ∧
    (v = CoachTipsPlaceholder ↔ fbs = []) ∧
    (fbs ≠ [] →
     ∃ cards, v = Cards cards ∧
       length cards = length fbs ∧
       map card_key cards ≡ₚ map fb_id fbs ∧
       Sorted (λ a b, card_time b ≤ card_time a) cards).
Proof.
  intros Hfbs.
  destruct (FeedbackList_sorted σ feedbacks fbs Hfbs) as (σ' & Hfl & Hσ').
  unfold renderFeedbackList. rewrite Hfl.
  eexists _, σ'. split; [reflexivity |]. split; [done |].
  pose proof (sortArray_perm compareFn fbs) as Hperm.
  unfold viewOf. case_bool_decide as Hlen.
  - apply nil_length_inv in Hlen. rewrite Hlen in Hperm.
    apply Permutation_nil_l in Hperm. subst fbs. by split.
  - split.
    + split; [done |]. intros ->. by destruct Hlen.
    + intros _. eexists. split; [reflexivity |].
      split; [by rewrite length_map, Hperm |].
      split.
      * assert (Hkeys : ∀ l : list FeedbackMessage,
                  map card_key (map cardOf l) = map fb_id l).
        { induction l as [| x l IH]; [done |]. simpl. by rewrite IH. }
        rewrite Hkeys. by apply Permutation_map.
      * apply (Sorted_fmap cardOf newestFirst); [done |].
        apply sortArray_sorted.
Qed.

End FeedbackListFacts.

(** ** The feedback history as the list renders it *)

Module HistoryOrder.
Import FeedbackListComponent FeedbackListProperties FeedbackListView.

Lemma recorded_readings env k fcs :
  map fb_timestamp (recorded env k fcs) = reverse (callReadings env k fcs).
Proof.
  revert k. induction fcs as [| fc rest IH]; intros k; [done |].
  simpl. rewrite map_app, IH, reverse_app. f_equal.
  unfold recordsEvent.
  destruct (isProvideFeedback fc); [| done].
  by destruct (fc_args fc) as [args|].
Qed.

Lemma reverse_newestFirst (l : list FeedbackMessage) :
  StronglySorted Z.le (reverse (map fb_timestamp l)) →
  StronglySorted newestFirst l.
Proof.
  induction l as [| x l IH]; intros Hs; [constructor |].
  simpl in Hs. rewrite reverse_cons in Hs.
  apply StronglySorted_app in Hs as (Hx & Hl & _).
  constructor; [by apply IH |].
  apply Forall_forall. intros y Hy. unfold newestFirst.
  apply (Hx (fb_timestamp y) (fb_timestamp x)).
  - apply elem_of_reverse, list_elem_of_fmap_2, Hy.
  - apply list_elem_of_here.
Qed.

Section Order.

Variable decodeAudioData : string → option AudioBuffer.

Lemma audioCompletes_decodes msg :
  audioCompletes decodeAudioData msg = true ↔ audioDecodes decodeAudioData msg.
Proof.
  unfold audioCompletes, audioDecodes.
  destruct (audioData msg) as [data|]; [| done].
  destruct (truthy data); [| done]. apply bool_decide_eq_true.
Qed.

(** What one message adds to the history carries the readings of that
    message, the last one first. *)
Lemma onmessage_feedbacks env msg st :
  map fb_timestamp (feedbacks (onmessage decodeAudioData env msg st).2) =
  reverse (messageReadings decodeAudioData env msg) ++
  map fb_timestamp (feedbacks st).
Proof.
  pose proof (onmessage_completion decodeAudioData env msg st) as Hc.
  pose proof (audioCompletes_decodes msg) as Ha.
  unfold messageReadings.
  rewrite onmessage_settle in *.
  destruct (handleAudioOutput_rest decodeAudioData env msg st)
    as (_ & _ & _ & _ & _ & Hf & _).
  destruct (handleAudioOutput decodeAudioData env msg st) as [[|] st1];
    simpl in *.
  - rewrite (proj2 Ha) by (by apply Hc).
    rewrite settle_feedbacks, Hf. destruct (toolCall msg) as [fcs|]; [| done].
    by rewrite map_app, recorded_readings.
  - destruct (audioCompletes decodeAudioData msg).
    + discriminate (proj2 Hc (proj1 Ha eq_refl)).
    + by rewrite Hf.
Qed.

Lemma run_feedbacks_readings evs st :
  map fb_timestamp (feedbacks (run decodeAudioData evs st)) =
  reverse (feedbackClocks decodeAudioData evs) ++
  map fb_timestamp (feedbacks st).
Proof.
  revert st. induction evs as [| ev evs IH]; intros st; [done |].
  change (run decodeAudioData (ev :: evs) st)
    with (run decodeAudioData evs (step decodeAudioData st ev)).
  rewrite IH.
  assert (Hcase : (¬ isMessage ev ∧
                   feedbackClocks decodeAudioData (ev :: evs) =
                   feedbackClocks decodeAudioData evs) ∨
                  (∃ env msg, ev = OnMessage env msg)).
  { destruct ev; try (left; split; [intros H; exact H | reflexivity]).
    right. by eexists _, _. }
  destruct Hcase as [[Hq Hw] | (env & msg & ->)].
  - rewrite Hw.
    destruct (step_quiet decodeAudioData st ev Hq) as (_ & _ & Hf & _).
    by rewrite Hf.
  - change (step decodeAudioData st (OnMessage env msg))
      with (onmessage decodeAudioData env msg st).2.
    rewrite onmessage_feedbacks.
    change (feedbackClocks decodeAudioData (OnMessage env msg :: evs))
      with (messageReadings decodeAudioData env msg ++
            feedbackClocks decodeAudioData evs).
    by rewrite reverse_app, app_assoc.
Qed.



(** X18.  Each feedback event carries the reading of the wall clock taken
    when it is recorded, so that the times of the history are these
    readings, the last one first.  When the clock does not go back from one
    reading to the next, the feedback history is therefore newest first in
    every state the component can reach, events recorded by one message
    included; the renderer's sort then leaves it exactly as it is, so the
    cards appear in the order of the history. *)
Theorem X18_history_rendered_in_order (evs : list Event) (σ : Store)
    (r : nat) :
  StronglySorted Z.le (feedbackClocks decodeAudioData evs) →
  let st := run decodeAudioData evs initialApp in
  map fb_timestamp (feedbacks st) =
    reverse (feedbackClocks decodeAudioData evs) ∧
  Sorted newestFirst (feedbacks st) ∧
  sortArray compareFn (feedbacks st) = feedbacks st ∧
  (σ !! r = Some (feedbacks st) →
   fst <$> FeedbackList r σ = Some (feedbacks st)).
Proof.
  intros Hclocks. simpl.
  assert (Ht : map fb_timestamp
                 (feedbacks (run decodeAudioData evs initialApp)) =
               reverse (feedbackClocks decodeAudioData evs)).
  { rewrite run_feedbacks_readings. simpl. by rewrite app_nil_r. }
  assert (Hs : Sorted newestFirst
                 (feedbacks (run decodeAudioData evs initialApp))).
  { apply StronglySorted_Sorted, reverse_newestFirst.
    by rewrite Ht, reverse_involutive. }
  assert (Hid : sortArray compareFn
                  (feedbacks (run decodeAudioData evs initialApp)) =
                feedbacks (run decodeAudioData evs initialApp)).
  { symmetry. by apply sortArray_unique. }
  split; [done |]. split; [done |]. split; [done |].
  intros Hσ.
  destruct (FeedbackListFacts.FeedbackList_sorted σ r _ Hσ) as (σ' & -> & _).
  simpl. by rewrite Hid.
Qed.

End Order.

End HistoryOrder.

(** ** The video preview *)

Module VideoPreviewFacts.
Import VideoPreviewComponent.

Lemma splitComma_cons (s : string) : ∃ piece pieces, splitComma s = piece :: pieces.
Proof.
  destruct s as [| c rest]; simpl; [by eexists _, _ |].
  destruct (Ascii.eqb c ","); [by eexists _, _ |].
  destruct (splitComma rest); by eexists _, _.
Qed.

Lemma splitComma_nocomma (s : string) :
  hasComma s = false → splitComma s = [s].
Proof.
  induction s as [| c rest IH]; [done |]. simpl.
  destruct (Ascii.eqb c ","); [done |]. simpl. intros Hrest.
  by rewrite (IH Hrest).
Qed.

Lemma splitComma_prefix (p q : string) :
  hasComma p = false → splitComma (p +:+ "," +:+ q) = p :: splitComma q.
Proof.
  induction p as [| c rest IH]; [done |]. simpl.
  destruct (Ascii.eqb c ",") eqn:Hc; [done |]. simpl. intros Hrest.
  by rewrite (IH Hrest).
Qed.

(** X19.  The frame handed to [onFrame] is the part of the data URL
    between its first and its second comma: for a URL made of a header
    without comma, a comma and a payload without comma it is the payload
    (the empty payload of the URL of an empty canvas included); for a
    string without any comma it is undefined. *)
Theorem X19_frame_is_payload_of_data_url (header payload : string) :
  hasComma header = false →
  (hasComma payload = false →
   base64Frame (header +:+ "," +:+ payload) = Some payload) ∧
  (∃ piece, base64Frame (header +:+ "," +:+ payload) = Some piece) ∧
  base64Frame header = None.
Proof.
  intros Hh. unfold base64Frame. rewrite splitComma_prefix by done.
  split; [| split].
  - intros Hp. by rewrite splitComma_nocomma.
  - destruct (splitComma_cons payload) as (piece & pieces & ->).
    by exists piece.
  - by rewrite splitComma_nocomma.
Qed.

Lemma effectRun_cons h ev evs r :
  effectRun h (ev :: evs) r = effectRun h evs (effectStep h r ev).
Proof. reflexivity. Qed.

Lemma effectRun_app h evs1 evs2 r :
  effectRun h (evs1 ++ evs2) r = effectRun h evs2 (effectRun h evs1 r).
Proof. unfold effectRun. apply foldl_app. Qed.

Lemma effectStep_released h r ev :
  runReleased r →
  runReleased (effectStep h r ev) ∧
  framesSent (effectStep h r ev) = framesSent r.
Proof.
  destruct r as [str iv p tl ts cu att so fs]. unfold runReleased. simpl.
  intros (-> & -> & -> & ->). by destruct ev.
Qed.

Lemma effectRun_released h evs r :
  runReleased r →
  runReleased (effectRun h evs r) ∧
  framesSent (effectRun h evs r) = framesSent r.
Proof.
  revert r. induction evs as [| ev evs IH]; intros r Hr; [done |].
  rewrite effectRun_cons.
  destruct (effectStep_released h r ev Hr) as [Hr' Hf].
  destruct (IH _ Hr') as [? ->]. done.
Qed.

Lemma effectStep_acquired h r ev :
  runAcquired r → runAcquired (effectStep h r ev).
Proof.
  destruct r as [str iv p tl ts cu att so fs]. unfold runAcquired. simpl.
  intros H. pose proof H as (-> & [s ->] & Hi & Hc).
  destruct ev; simpl; try exact H.
  - destruct ts, att; exact H.
  - destruct cu; [exact H |]. simpl.
    split; [done |]. split; [by eexists |].
    destruct iv as [t|].
    + split; [done |]. done.
    + destruct ts; [by destruct (Hi eq_refl) |]. split; done.
Qed.

Lemma effectRun_acquired h evs r :
  runAcquired r → runAcquired (effectRun h evs r).
Proof.
  revert r. induction evs as [| ev evs IH]; intros r Hr; [done |].
  rewrite effectRun_cons. apply IH. by apply effectStep_acquired.
Qed.

(** X20.  When the cleanup of an effect runs after the camera stream has
    arrived, the tracks are stopped and the timer is cleared, and no frame
    is handed to [onFrame] afterwards, whatever else happens to that run;
    and an effect started while the session is inactive never asks for the
    camera and never sends a frame. *)
Theorem X20_cleanup_releases_camera (hasOnFrame : bool) (s t : nat)
    (before after : list EffectEvent) :
  let atCleanup :=
    effectRun hasOnFrame (MediaResolved s t :: before) (useEffect true) in
  let r :=
    effectRun hasOnFrame (MediaResolved s t :: before ++ Cleanup :: after)
      (useEffect true) in
  let idle := effectRun hasOnFrame (before ++ after) (useEffect false) in
  (tracksLive r = false ∧ timerSet r = false ∧
   framesSent r = framesSent atCleanup) ∧
  (tracksLive idle = false ∧ timerSet idle = false ∧ stream idle = None ∧
   framesSent idle = []).
Proof.
  cbv zeta. split.
  - change (MediaResolved s t :: before ++ Cleanup :: after)
      with ((MediaResolved s t :: before) ++ Cleanup :: after).
    rewrite effectRun_app.
    set (r1 := effectRun hasOnFrame (MediaResolved s t :: before)
                 (useEffect true)).
    assert (Hacq : runAcquired r1).
    { unfold r1. rewrite effectRun_cons. apply effectRun_acquired.
      unfold runAcquired. simpl.
      split; [done |]. split; [by eexists |].
      split; [| done]. by destruct hasOnFrame. }
    rewrite effectRun_cons.
    assert (Hrel : runReleased (effectStep hasOnFrame r1 Cleanup) ∧
                   framesSent (effectStep hasOnFrame r1 Cleanup) =
                   framesSent r1).
    { clearbody r1. destruct r1 as [str iv p tl ts cu att so fs].
      unfold runAcquired, runReleased in *. simpl in *.
      destruct Hacq as (-> & [s0 ->] & Hi & Hc).
      destruct cu; simpl.
      - by destruct (Hc eq_refl) as [-> ->].
      - destruct iv; [done |].
        destruct ts; [by destruct (Hi eq_refl) | done]. }
    destruct Hrel as [Hrel Hframes].
    destruct (effectRun_released hasOnFrame after _ Hrel)
      as [(_ & _ & Ht & Hi) Hf].
    by rewrite Ht, Hi, Hf, Hframes.
  - assert (Hidle : ∀ evs r,
              pending r = false ∧ tracksLive r = false ∧ timerSet r = false ∧
              stream r = None ∧ interval r = None ∧ framesSent r = [] →
              tracksLive (effectRun hasOnFrame evs r) = false ∧
              timerSet (effectRun hasOnFrame evs r) = false ∧
              stream (effectRun hasOnFrame evs r) = None ∧
              framesSent (effectRun hasOnFrame evs r) = []).
    { induction evs as [| ev evs IH]; intros r0 Hr0.
      - by destruct Hr0 as (_ & ? & ? & ? & _ & ?).
      - rewrite effectRun_cons. apply IH.
        destruct r0 as [str iv p tl ts cu att so fs]. simpl in *.
        destruct Hr0 as (-> & -> & -> & -> & -> & ->).
        destruct ev; simpl; try done. by destruct cu. }
    by apply Hidle.
Qed.

Lemma effectRun_leaked h evs r :
  pending r = false → cleanedUp r = true →
  tracksLive (effectRun h evs r) = tracksLive r ∧
  timerSet (effectRun h evs r) = timerSet r ∧
  srcObject (effectRun h evs r) = srcObject r ∧
  framesSent (effectRun h evs r) =
    framesSent r ++
    (if timerSet r && attached r
     then map base64Frame (attachedUrls evs) else []).
Proof.
  revert r. induction evs as [| ev evs IH]; intros r Hp Hc.
  - unfold effectRun. simpl.
    by destruct (timerSet r && attached r); rewrite app_nil_r.
  - rewrite effectRun_cons.
    destruct r as [str iv p tl ts cu att so fs]. simpl in Hp, Hc. subst p cu.
    destruct ev as [s t| | u | | |];
      cbn [effectStep pending timerSet attached cleanedUp];
      destruct ts, att; cbn [andb];
      (match goal with
       | |- context [effectRun h evs ?r'] =>
         destruct (IH r' eq_refl eq_refl) as (-> & -> & -> & ->)
       end);
      cbn [tracksLive timerSet srcObject framesSent attached andb
           attachedUrls map];
      rewrite <- ?app_assoc, ?app_nil_r; done.
Qed.

(** X21.  When the cleanup of an effect runs before the camera stream has
    arrived, it releases nothing: once the stream arrives its tracks run
    and, if [onFrame] is given, the timer is set, and both stay so whatever
    happens to that run afterwards.  When the elements are still attached
    (the effect was run again), the frames handed to [onFrame] are those of
    the firings at which the canvas context yields a data URL, up to the
    moment the elements are detached.  When the cleanup belongs to an
    unmount, which detaches the elements, the stream that arrives is not
    shown and no frame is handed over, while the tracks run and the timer
    stays set. *)
Theorem X21_early_cleanup_releases_nothing (hasOnFrame : bool) (s t : nat)
    (after : list EffectEvent) :
  let r :=
    effectRun hasOnFrame (Cleanup :: MediaResolved s t :: after)
      (useEffect true) in
  let unmounted :=
    [effectRun hasOnFrame (Detached :: Cleanup :: MediaResolved s t :: after)
       (useEffect true);
     effectRun hasOnFrame (Cleanup :: Detached :: MediaResolved s t :: after)
       (useEffect true)] in
  (tracksLive r = true ∧
   timerSet r = hasOnFrame ∧
   srcObject r = Some s ∧
   framesSent r =
     (if hasOnFrame then map base64Frame (attachedUrls after) else [])) ∧
  Forall (λ gone, tracksLive gone = true ∧
                  timerSet gone = hasOnFrame ∧
                  srcObject gone = None ∧
                  framesSent gone = []) unmounted.
Proof.
  cbv zeta. split; [| repeat apply Forall_cons_2; [| | apply Forall_nil_2]];
    rewrite !effectRun_cons.
  - set (r0 := effectStep hasOnFrame
                 (effectStep hasOnFrame (useEffect true) Cleanup)
                 (MediaResolved s t)).
    destruct (effectRun_leaked hasOnFrame after r0) as (Ht & Hi & Hs & Hf);
      [done | done |].
    rewrite Ht, Hi, Hs, Hf. unfold r0. simpl. by destruct hasOnFrame.
  - set (r0 := effectStep hasOnFrame _ (MediaResolved s t)).
    destruct (effectRun_leaked hasOnFrame after r0) as (Ht & Hi & Hs & Hf);
      [done | done |].
    rewrite Ht, Hi, Hs, Hf. unfold r0. simpl. by destruct hasOnFrame.
  - set (r0 := effectStep hasOnFrame _ (MediaResolved s t)).
    destruct (effectRun_leaked hasOnFrame after r0) as (Ht & Hi & Hs & Hf);
      [done | done |].
    rewrite Ht, Hi, Hs, Hf. unfold r0. simpl. by destruct hasOnFrame.
Qed.

End VideoPreviewFacts.

(** ** Acknowledgments and the microphone *)

Section Accounting.

Variable decodeAudioData : string → option AudioBuffer.

Lemma toolResponses_app es1 es2 :
  toolResponses (es1 ++ es2) = toolResponses es1 ++ toolResponses es2.
Proof. apply omap_app. Qed.

Lemma stopSession_accounts st :
  toolResponses (effects (stopSession st)) = toolResponses (effects st) ∧
  feedbacks (stopSession st) = feedbacks st ∧
  micStream (stopSession st) = micStream st.
Proof.
  unfold stopSession.
  destruct (sessionRef st); simpl;
    rewrite ?toolResponses_app, toolResponses_stops, ?app_nil_r; done.
Qed.

(** What one event adds to the acknowledgments sent and to the feedback
    history. *)
Lemma step_accounts st ev :
  ∃ acks new,
    toolResponses (effects (step decodeAudioData st ev)) =
      toolResponses (effects st) ++ acks ∧
    feedbacks (step decodeAudioData st ev) = new ++ feedbacks st ∧
    (length new ≤ length acks)%nat ∧
    (callsCarryArgs ev → length new = length acks).
Proof.
  assert (Hnone : ∀ st',
            toolResponses (effects st') = toolResponses (effects st) →
            feedbacks st' = feedbacks st →
            ∃ acks new,
              toolResponses (effects st') =
                toolResponses (effects st) ++ acks ∧
              feedbacks st' = new ++ feedbacks st ∧
              (length new ≤ length acks)%nat ∧
              (callsCarryArgs ev → length new = length acks)).
  { intros st' He Hf. exists [], []. by rewrite app_nil_r. }
  destruct ev as [granted| s | | env msg | n | | | |]; cbn [step];
    try (by apply Hnone).
  - apply Hnone; by destruct granted.
  - rewrite onmessage_settle.
    destruct (handleAudioOutput_effects decodeAudioData env msg st)
      as (es0 & Heff & Hes0 & Hfb).
    destruct (handleAudioOutput decodeAudioData env msg st) as [[|] st1];
      cbn [fst snd] in *.
    + rewrite settle_effects, settle_feedbacks, Heff, Hfb.
      rewrite !toolResponses_app, Hes0, app_nil_r.
      assert (Hstops : toolResponses
                (if interrupted msg
                 then map (λ s, SourceStop (node_id s)) (sourcesRef st1)
                 else []) = []).
      { destruct (interrupted msg); [apply toolResponses_stops | done]. }
      rewrite Hstops. cbn [app callsCarryArgs].
      destruct (toolCall msg) as [fcs|].
      * rewrite toolResponses_sent. eexists _, _.
        split; [reflexivity |]. split; [reflexivity |].
        split; [apply recorded_le_acknowledged |].
        apply recorded_all_acknowledged.
      * by exists [], [].
    + apply Hnone; [| done].
      by rewrite Heff, toolResponses_app, Hes0, app_nil_r.
  - apply Hnone; unfold onended; simpl; by case_bool_decide.
  - unfold onerror.
    destruct (stopSession_accounts
                (setError
                   (Some "Communication lost. Please try restarting the session.")
                   st)) as (He & Hf & _).
    by apply Hnone.
  - destruct (stopSession_accounts st) as (He & Hf & _). by apply Hnone.
Qed.

(** X22.  In every state the component can reach, the feedback history,
    whose length the counter of the page shows, holds at most as many
    events as acknowledgments have been sent; it holds exactly as many when
    every provideFeedback call received so far carried an arguments
    object. *)
Theorem X22_one_ack_per_recorded_event (evs : list Event) :
  let st := run decodeAudioData evs initialApp in
  (length (feedbacks st) ≤ length (toolResponses (effects st)))%nat ∧
  feedbackCounter (render st) = length (feedbacks st) ∧
  (Forall callsCarryArgs evs →
   length (feedbacks st) = length (toolResponses (effects st))).
Proof.
  simpl.
  assert (Hrun : ∀ st,
            (length (feedbacks st) ≤ length (toolResponses (effects st)))%nat →
            (length (feedbacks (run decodeAudioData evs st)) ≤
             length (toolResponses (effects (run decodeAudioData evs st))))%nat
            ∧
            (Forall callsCarryArgs evs →
             length (feedbacks st) = length (toolResponses (effects st)) →
             length (feedbacks (run decodeAudioData evs st)) =
             length (toolResponses (effects (run decodeAudioData evs st))))).
  { induction evs as [| ev evs IH]; intros st Hst; [done |].
    change (run decodeAudioData (ev :: evs) st)
      with (run decodeAudioData evs (step decodeAudioData st ev)).
    destruct (step_accounts st ev) as (acks & new & He & Hf & Hle & Heq).
    destruct (IH (step decodeAudioData st ev)) as [IHle IHeq].
    { rewrite He, Hf, !length_app. lia. }
    split; [done |].
    intros [Hev Hevs]%Forall_cons Hinv. apply IHeq; [done |].
    rewrite He, Hf, !length_app, (Heq Hev). lia. }
  destruct (Hrun initialApp) as [Hle Heq]; [done |].
  split; [done |]. split; [done |].
  intros Hall. by apply Heq.
Qed.

Lemma step_micStream st ev :
  micStream st = true → micStream (step decodeAudioData st ev) = true.
Proof.
  intros Hmic.
  destruct ev as [granted| s | | env msg | n | | | |]; cbn [step]; try done.
  - by destruct granted.
  - by destruct (onmessage_phase decodeAudioData env msg st)
      as (_ & _ & _ & ->).
  - unfold onended. simpl. by case_bool_decide.
  - unfold onerror.
    by destruct (stopSession_accounts
                   (setError
                      (Some "Communication lost. Please try restarting the session.")
                      st)) as (_ & _ & ->).
  - by destruct (stopSession_accounts st) as (_ & _ & ->).
Qed.

(** X23.  Once the microphone stream has been obtained it is never
    released: it stays live over every event, the end of the session, an
    inbound error and an inbound close included. *)
Theorem X23_microphone_never_released (evs : list Event) (st : App) :
  micStream st = true →
  micStream (run decodeAudioData evs st) = true.
Proof.
  revert st. induction evs as [| ev evs IH]; intros st Hmic; [done |].
  simpl. apply IH. by apply step_micStream.
Qed.

End Accounting.

(** * Concrete runs *)

Import AudioProcessing Runs.

Lemma threeSamples_decodes :
  decodeAudioData threeSamples =
  Some {| samples := [0; 0; 0]; sampleRate := 24000 |}.
Proof. reflexivity. Qed.

Lemma threeBytes_fails : decodeAudioData threeBytes = None.
Proof. reflexivity. Qed.

Lemma audioMessage_enqueues data :
  truthy data = true → is_Some (decodeAudioData data) →
  enqueues decodeAudioData (audioMessage data).
Proof. intros Ht Hd. split; [done |]. by exists data. Qed.

Lemma twoChunksLate_enqueue :
  Forall (λ c, enqueues decodeAudioData c.2) twoChunksLate.
Proof. repeat constructor; by apply audioMessage_enqueues. Qed.

(** C1, counterexample.  A chunk of 1/8000 s is enqueued at clock 0 and the
    next one at clock 5, with no interruption: the second source starts at
    5, not at the end 1/8000 of the first one. *)
Lemma C1_contiguity_counterexample :
  Forall (λ c, enqueues decodeAudioData c.2) twoChunksLate ∧
  ∃ h h',
    sourcesRef (enqueueAll decodeAudioData twoChunksLate activeApp) = [h; h'] ∧
    (when h + duration (buffer h))%Qc = Q2Qc (1 # 8000) ∧
    when h' = Q2Qc 5 ∧
    when h' ≠ (when h + duration (buffer h))%Qc.
Proof.
  split; [exact twoChunksLate_enqueue |].
  eexists _, _. split; [reflexivity |].
  split; [by apply Qc_is_canon |]. split; [by apply Qc_is_canon |].
  by compute.
Qed.

Lemma C1_gapless_schedule_witness :
  ∃ hs,
    sourcesRef (enqueueAll decodeAudioData twoChunksLate activeApp) =
      sourcesRef activeApp ++ hs ∧
    length hs = length twoChunksLate.
Proof.
  destruct (C1_gapless_schedule decodeAudioData twoChunksLate activeApp
              twoChunksLate_enqueue) as (hs & Hsrc & Hlen & _).
  by exists hs.
Defined.

(** Chunk A of 1.0 s arrives at clock 0, chunk B of 0.5 s at clock 0.2,
    then an interruption. *)
Example scenario_gapless_then_interrupt :
  let stA :=
    run decodeAudioData [OnMessage (envAt 0 1000) (audioMessage chunkA)]
      activeApp in
  let stB :=
    run decodeAudioData
      [OnMessage (envAt (Q2Qc (1 # 5)) 1200) (audioMessage chunkB)] stA in
  let stI :=
    run decodeAudioData [OnMessage (envAt (Q2Qc (1 # 2)) 1500) interruptedMessage]
      stB in
  nextStartTimeRef stA = 1%Qc ∧
  map when (sourcesRef stB) = [0%Qc; 1%Qc] ∧
  nextStartTimeRef stB = Q2Qc (3 # 2) ∧
  sourcesRef stI = [] ∧
  nextStartTimeRef stI = 0%Qc.
Proof.
  vm_compute. repeat split; try reflexivity; by apply Qc_is_canon.
Qed.

Lemma C2_interrupt_resets_playback_witness :
  sourcesRef playingApp ≠ [] ∧
  sourcesRef
    (onmessage decodeAudioData (envAt 0 2000) interruptedMessage playingApp).2
    = [].
Proof.
  split; [done |].
  apply (C2_interrupt_resets_playback decodeAudioData (envAt 0 2000)
           interruptedMessage playingApp); reflexivity.
Defined.



(** C4, counterexample.  A tool-call message with one call named
    endInterview is received and handled: no acknowledgment is sent. *)
Lemma C4_other_name_counterexample :
  let r := onmessage decodeAudioData (envAt 0 1000)
             (toolCallMessage [otherCall]) activeApp in
  r.1 = Normal ∧
  length [otherCall] = 1%nat ∧
  toolResponses (effects r.2) = [].
Proof. by repeat split. Qed.

Lemma C4_one_ack_per_provideFeedback_call_witness :
  ∃ es,
    effects
      (onmessage decodeAudioData (envAt 0 1000)
         (toolCallMessage [completeCall; otherCall; missingSentiment])
         activeApp).2 = effects activeApp ++ es ∧
    toolResponses es =
      [acknowledgment completeCall; acknowledgment missingSentiment].
Proof.
  apply (C4_one_ack_per_provideFeedback_call decodeAudioData (envAt 0 1000)
           (toolCallMessage [completeCall; otherCall; missingSentiment])
           activeApp _ [completeCall; otherCall; missingSentiment]);
    reflexivity.
Defined.

(** C5, counterexample.  With [nextStartTimeRef] at 0 and the clock at 5, a
    chunk whose decode fails arrives: the handler throws and leaves
    [nextStartTimeRef] at 5. *)
Lemma C5_next_start_time_counterexample :
  let r := onmessage decodeAudioData (envAt (Q2Qc 5) 6000)
             (audioMessage threeBytes) activeApp in
  decodeAudioData threeBytes = None ∧
  r.1 = Throw ∧
  nextStartTimeRef activeApp = 0%Qc ∧
  nextStartTimeRef r.2 = Q2Qc 5 ∧
  nextStartTimeRef r.2 ≠ nextStartTimeRef activeApp.
Proof.
  split; [reflexivity |]. split; [reflexivity |]. split; [reflexivity |].
  split; [by apply Qc_is_canon | by compute].
Qed.

Lemma C5_failed_decode_keeps_sources_witness :
  ∃ st',
    onmessage decodeAudioData (envAt (Q2Qc 5) 6000) (audioMessage threeBytes)
      playingApp = (Throw, st') ∧
    sourcesRef st' = sourcesRef playingApp.
Proof.
  destruct (C5_failed_decode_keeps_sources decodeAudioData
              (envAt (Q2Qc 5) 6000) (audioMessage threeBytes) playingApp
              threeBytes eq_refl eq_refl eq_refl) as (st' & Hr & Hsrc & _).
  by exists st'.
Defined.

Lemma C6_flushTurn_witness :
  transcriptions
    (flushTurn (envAt 0 3000)
       (appendUser (Some "hi") activeApp)) =
  [{| role := user; text := "hi"; timestamp := 3000 |}].
Proof.
  destruct (C6_flushTurn (envAt 0 3000) (appendUser (Some "hi") activeApp))
    as (_ & _ & Hone & _).
  by apply Hone.
Defined.

(** C7, counterexample.  A session is started and a chunk whose decode
    fails arrives: in the state reached the speaking indicator is on and no
    source is in the set. *)
Lemma C7_speaking_without_source_counterexample :
  let st :=
    run decodeAudioData
      [ClickStart true; SessionResolved 1;
       OnMessage (envAt 0 1000) (audioMessage threeBytes)] initialApp in
  decodeAudioData threeBytes = None ∧
  isSpeaking st = true ∧
  sourcesRef st = [].
Proof. by repeat split. Qed.

Lemma decodingRun_decodes : Forall (eventDecodes decodeAudioData) decodingRun.
Proof. repeat constructor; by eexists. Qed.

Lemma C7_speaking_indicator_witness :
  isSpeaking (run decodeAudioData decodingRun initialApp) = true ↔
  sourcesRef (run decodeAudioData decodingRun initialApp) ≠ [].
Proof.
  apply (C7_speaking_indicator decodeAudioData decodingRun).
  exact decodingRun_decodes.
Defined.

(** C8, counterexample.  A session is active with one source scheduled.
    When the channel closes, the session is no longer active, but the
    source is still in the set and has not been stopped, and the session
    reference is kept.  When instead the user stops the session or an error
    arrives, the microphone stream stays live. *)
Lemma C8_close_keeps_sources_counterexample :
  let closed := run decodeAudioData [OnClose] playingApp in
  isActive playingApp = true ∧
  isActive closed = false ∧
  length (sourcesRef closed) = 1%nat ∧
  Forall (λ e, ∀ n, e ≠ SourceStop n) (effects closed) ∧
  sessionRef closed = Some 1%nat ∧
  micStream closed = true ∧
  isActive (run decodeAudioData [ClickEnd] playingApp) = false ∧
  micStream (run decodeAudioData [ClickEnd] playingApp) = true ∧
  isActive (run decodeAudioData [OnError] playingApp) = false ∧
  micStream (run decodeAudioData [OnError] playingApp) = true.
Proof.
  repeat split; try reflexivity.
  repeat constructor; by intros n.
Qed.

Import FeedbackListComponent FeedbackListProperties FeedbackListRuns.

(** C10, counterexample.  Two of the events carry the same timestamp: they
    are rendered next to each other, so the rendered timestamps are not
    strictly descending. *)
Lemma C10_equal_timestamps_counterexample :
  fst <$> FeedbackList 0%nat history = Some [tipContent; tipPace; tipTone] ∧
  ¬ (fb_timestamp tipTone < fb_timestamp tipPace).
Proof. split; [by vm_compute | by compute]. Qed.

Lemma C10_rendered_newest_first_witness :
  ∃ cards σ', FeedbackList 0%nat history = Some (cards, σ') ∧
    cards = sortArray compareFn [tipPace; tipTone; tipContent] ∧
    σ' !! 0%nat = Some [tipPace; tipTone; tipContent].
Proof.
  destruct (C10_rendered_newest_first history 0%nat
              [tipPace; tipTone; tipContent] eq_refl)
    as (cards & σ' & Hr & Hc & _ & _ & _ & Hσ & _).
  by exists cards, σ'.
Defined.

(** ** Further concrete runs *)

Import MoreRuns.

Lemma X3_onended_removes_that_source_witness :
  let st := run decodeAudioData decodingRun initialApp in
  ∃ s, s ∈ sourcesRef st ∧
       S (length (sourcesRef (onended (node_id s) st))) =
       length (sourcesRef st).
Proof.
  exists {| node_id := 1;
            buffer := {| samples := [0; 0; 0]; sampleRate := 24000 |};
            when := windowEnd
                      {| node_id := 0;
                         buffer := {| samples := [0; 0; 0];
                                      sampleRate := 24000 |};
                         when := Qcmax 0 0 |} |}.
  assert (Hin :
    {| node_id := 1;
       buffer := {| samples := [0; 0; 0]; sampleRate := 24000 |};
       when := windowEnd
                 {| node_id := 0;
                    buffer := {| samples := [0; 0; 0];
                                 sampleRate := 24000 |};
                    when := Qcmax 0 0 |} |}
    ∈ sourcesRef (run decodeAudioData decodingRun initialApp)).
  { vm_compute. apply list_elem_of_here. }
  split; [exact Hin |].
  by apply (X3_onended_removes_that_source decodeAudioData decodingRun).
Defined.

Lemma X4_windows_never_overlap_witness :
  ∃ a b,
    sourcesRef (run decodeAudioData twoChunkRun initialApp) = [a; b] ∧
    (when a + duration (buffer a) ≤ when b)%Qc.
Proof.
  pose proof (proj1 (X4_windows_never_overlap decodeAudioData twoChunkRun))
    as Hno.
  cbv zeta in Hno.
  destruct (sourcesRef (run decodeAudioData twoChunkRun initialApp))
    as [| a [| b [| c l]]] eqn:Hsrc;
    try (vm_compute in Hsrc; discriminate).
  exists a, b. split; [reflexivity |].
  by apply (Hno [] a [] b []).
Defined.

Lemma not_interruption_decodingRun :
  Forall (λ ev, ¬ isInterruption ev) decodingRun.
Proof.
  repeat (apply Forall_cons; split; [intros H; by simpl in H |]).
  constructor.
Qed.

Lemma X5_nextStartTime_monotone_witness :
  (nextStartTimeRef initialApp ≤
   nextStartTimeRef (run decodeAudioData decodingRun initialApp))%Qc.
Proof.
  apply (X5_nextStartTime_monotone decodeAudioData decodingRun initialApp).
  exact not_interruption_decodingRun.
Defined.

Lemma X6_started_once_stopped_only_if_started_witness :
  0%nat ∈ startedNodes (effects (run decodeAudioData interruptRun initialApp)).
Proof.
  apply (X6_started_once_stopped_only_if_started decodeAudioData interruptRun).
  vm_compute. apply list_elem_of_here.
Defined.

Lemma X7_late_onended_harmless_witness : onended 5 playingApp = playingApp.
Proof.
  apply (X7_late_onended_harmless 5 playingApp).
  - vm_compute. intros Hin. apply list_elem_of_singleton in Hin. lia.
  - vm_compute. discriminate.
Defined.

Lemma no_message_restartRun : Forall (λ ev, ¬ isMessage ev) restartRun.
Proof.
  repeat (apply Forall_cons; split; [intros H; by simpl in H |]).
  constructor.
Qed.

Lemma X9_session_end_keeps_history_witness :
  buf_user
    (transcriptionBufferRef (run decodeAudioData restartRun pendingApp)) =
  "fil".
Proof.
  destruct (X9_session_end_keeps_history decodeAudioData restartRun pendingApp
              no_message_restartRun) as (Hb & _).
  by rewrite Hb.
Defined.

Lemma X10_error_overlay_means_inactive_witness :
  headerButton (render (run decodeAudioData errorRun initialApp)) =
  StartInterview.
Proof.
  apply (X10_error_overlay_means_inactive decodeAudioData errorRun
           "Communication lost. Please try restarting the session.").
  reflexivity.
Defined.


Lemma X12_frames_only_to_open_session_witness :
  handleFrame true (Some "/9j/4AAQ")
    (run decodeAudioData [ClickStart true; OnClose] (stopSession playingApp))
  = [].
Proof.
  destruct (X12_frames_only_to_open_session decodeAudioData true
              (Some "/9j/4AAQ") playingApp [ClickStart true; OnClose])
    as (_ & Hstopped & _).
  apply Hstopped.
  repeat (apply Forall_cons; split; [by intros s |]). constructor.
Defined.

Lemma X13_chunk_with_interruption_is_stopped_witness :
  sourcesRef
    (onmessage decodeAudioData (envAt 0 2000) interruptedChunk playingApp).2
  = [].
Proof.
  apply (X13_chunk_with_interruption_is_stopped decodeAudioData
           (envAt 0 2000) interruptedChunk playingApp threeSamples
           {| samples := [0; 0; 0]; sampleRate := 24000 |});
    reflexivity.
Defined.

Lemma X14_closing_message_fragments_included_witness :
  transcriptions
    (onmessage decodeAudioData (envAt 0 4000) closingMessage pendingApp).2 =
  [{| role := user; text := "filler"; timestamp := 4000 |}].
Proof.
  destruct (X14_closing_message_fragments_included decodeAudioData
              (envAt 0 4000) closingMessage pendingApp
              (onmessage decodeAudioData (envAt 0 4000) closingMessage
                 pendingApp).2 eq_refl eq_refl) as [Ht _].
  rewrite Ht. reflexivity.
Defined.

Lemma X15_sort_keeps_sorted_list_witness :
  sortArray compareFn [tipContent; tipPace; tipTone] =
  [tipContent; tipPace; tipTone].
Proof.
  apply (proj1 (FeedbackListFacts.X15_sort_keeps_sorted_list
                  [tipContent; tipPace; tipTone])).
  repeat (apply Sorted_cons || apply HdRel_cons || apply Sorted_nil
          || apply HdRel_nil); unfold newestFirst; simpl; lia.
Defined.

Lemma X16_one_card_per_event_witness :
  ∃ v σ', FeedbackListView.renderFeedbackList 0%nat history = Some (v, σ') ∧
    σ' !! 0%nat = Some [tipPace; tipTone; tipContent].
Proof.
  destruct (FeedbackListFacts.X16_one_card_per_event history 0%nat
              [tipPace; tipTone; tipContent] eq_refl)
    as (v & σ' & Hr & Hσ & _).
  by exists v, σ'.
Defined.


Lemma feedbackClocks_feedbackRun :
  StronglySorted Z.le (feedbackClocks decodeAudioData feedbackRun).
Proof.
  change (feedbackClocks decodeAudioData feedbackRun) with [1000; 1000; 2000].
  repeat (apply SSorted_cons || apply SSorted_nil || apply Forall_cons_2
          || apply Forall_nil_2); lia.
Qed.

Lemma X18_history_rendered_in_order_witness :
  sortArray compareFn
    (feedbacks (run decodeAudioData feedbackRun initialApp)) =
  feedbacks (run decodeAudioData feedbackRun initialApp).
Proof.
  apply (HistoryOrder.X18_history_rendered_in_order decodeAudioData
           feedbackRun ∅ 0%nat).
  exact feedbackClocks_feedbackRun.
Defined.

Lemma callsCarryArgs_feedbackRun : Forall callsCarryArgs feedbackRun.
Proof.
  unfold feedbackRun. repeat apply Forall_cons_2; try apply Forall_nil_2;
    try exact I; simpl;
    repeat apply Forall_cons_2; try apply Forall_nil_2; intros _; by eexists.
Qed.

Lemma X22_one_ack_per_recorded_event_witness :
  Forall callsCarryArgs feedbackRun ∧
  length (feedbacks (run decodeAudioData feedbackRun initialApp)) =
  length (toolResponses (effects (run decodeAudioData feedbackRun initialApp))).
Proof.
  split; [exact callsCarryArgs_feedbackRun |].
  apply (X22_one_ack_per_recorded_event decodeAudioData feedbackRun).
  exact callsCarryArgs_feedbackRun.
Defined.

Lemma X19_frame_is_payload_of_data_url_witness :
  VideoPreviewComponent.base64Frame
    ("data:image/jpeg;base64" +:+ "," +:+ "/9j/4AAQ") = Some "/9j/4AAQ".
Proof.
  apply (VideoPreviewFacts.X19_frame_is_payload_of_data_url
           "data:image/jpeg;base64" "/9j/4AAQ"); reflexivity.
Defined.

Lemma X23_microphone_never_released_witness :
  micStream (run decodeAudioData [ClickEnd; OnClose; OnError] playingApp) =
  true.
Proof.
  apply (X23_microphone_never_released decodeAudioData
           [ClickEnd; OnClose; OnError] playingApp).
  reflexivity.
Defined.
